(** * zod-paginate-drizzle: the Drizzle adapter of zod-paginate

    A shallow embedding of [src/drizzle-adapter.ts] and the properties of
    its clause builder.

    Conventions of the embedding.
    - A JavaScript [throw new Error(msg)] is the [Throw] outcome of the
      [Result] monad; the message is kept.
    - [T | undefined] is [option T].  The exported entry point
      [applyDrizzlePaginationOnQuery] instantiates the column and expression
      types with Drizzle's [Column] and [SQL] classes, whose values are
      objects: a test [!x] or [Boolean(x)] on such a value is true exactly
      for [undefined], that is for [None].
    - The field mapping is a JavaScript object: its own properties and
      what its prototype chain answers; [fields[fieldPath]] reads both.
      The select shape is the [gmap] of the own properties of the object
      the adapter builds, and [Map<string, number>] is a [gmap].
    - A number is an integer-valued double, an infinity or NaN; sums and
      products are rounded as IEEE 754 doubles are.  Negative zero is not
      told apart from zero. *)

From Stdlib Require Import ZArith String Ascii List Lia.
From stdpp Require Import base option list strings gmap pretty.

Set Default Proof Using "Type".
Set Warnings "-register-all".

(** ** Errors and results *)

(** [new Error(message)]. *)
Record Error : Type := mkError { message : string }.

Inductive Result (A : Type) : Type :=
| Ok (a : A)
| Throw (e : Error).
Arguments Ok {A} a.
Arguments Throw {A} e.

#[global] Instance Result_ret : MRet Result := fun A a => Ok a.
#[global] Instance Result_bind : MBind Result := fun A B f m =>
  match m with
  | Ok a => f a
  | Throw e => Throw e
  end.
#[global] Instance Result_fmap : FMap Result := fun A B f m =>
  match m with
  | Ok a => Ok (f a)
  | Throw e => Throw e
  end.

Definition throws {A} (m : Result A) : Prop :=
  match m with
  | Ok _ => False
  | Throw _ => True
  end.

Definition returns {A} (m : Result A) : Prop :=
  match m with
  | Ok _ => True
  | Throw _ => False
  end.

(** ** Strings *)

(** The double quote, code 34. *)
Definition dquote : string := String "034"%char EmptyString.

(** [s.replaceAll(c, r)] for a search string [c] of one character, the only
    form the adapter uses. *)
Fixpoint replaceAll (s : string) (c : ascii) (r : string) : string :=
  match s with
  | EmptyString => EmptyString
  | String x s' =>
      if Ascii.eqb x c then r +:+ replaceAll s' c r
      else String x (replaceAll s' c r)
  end.

Definition backslash : ascii := "092"%char.
Definition percent : ascii := "037"%char.
Definition underscore : ascii := "095"%char.
Definition dot : ascii := "046"%char.

Definition str (c : ascii) : string := String c EmptyString.

(** [defaultSelectAlias], lines 167-169. *)
Definition defaultSelectAlias (path : string) : string :=
  replaceAll path dot (str underscore).

(** [escapeLike], lines 174-176. *)
Definition escapeLike (value : string) : string :=
  replaceAll
    (replaceAll
       (replaceAll value backslash (String backslash (str backslash)))
       percent (String backslash (str percent)))
    underscore (String backslash (str underscore)).

(** The adapter throws plain [Error]s.  The three throw sites are named
    here after the kind of failure they report. *)

(** The error thrown by [getMappedColumn], line 191. *)
Definition FieldMappingError (fieldPath : string) : Error :=
  mkError ("No Drizzle field mapping found for " +:+ dquote +:+ fieldPath +:+ dquote).

(** The error thrown for [$contains], lines 250-252. *)
Definition UnsupportedOperatorError : Error :=
  mkError ("Operator " +:+ dquote +:+ "$contains" +:+ dquote
           +:+ " is present but no " +:+ dquote +:+ "contains" +:+ dquote
           +:+ " function is provided in the Drizzle operator set").

(** The errors of [andSql] and [orSql], lines 105 and 114. *)
Definition EmptyAndError : Error :=
  mkError "Cannot build AND expression from an empty list".
Definition EmptyOrError : Error :=
  mkError "Cannot build OR expression from an empty list".

(** ** Numbers *)

(** The JavaScript numbers the adapter can meet in a request whose page and
    limit are integers: integer-valued doubles, the infinities that
    arithmetic on them overflows to, and NaN.  The two zeros are one
    number here, as they are for [===] and for every comparison. *)
Inductive JsNum : Type :=
| Finite (n : Z)
| PosInfinity
| NegInfinity
| NaN.

Coercion Finite : Z >-> JsNum.

(** The double nearest to the integer [n], ties to the even significand;
    an integer of magnitude up to [2^53] is a double. *)
Definition roundDouble (n : Z) : JsNum :=
  let a := Z.abs n in
  if (a <=? 2 ^ 53)%Z then Finite n
  else
    let k := (Z.log2 a - 52)%Z in
    let q := (a / 2 ^ k)%Z in
    let r := (a mod 2 ^ k)%Z in
    let half := (2 ^ (k - 1))%Z in
    let q := if (half <? r)%Z || ((r =? half)%Z && Z.odd q) then (q + 1)%Z else q in
    let m := (q * 2 ^ k)%Z in
    if (2 ^ 1024 <=? m)%Z then (if (n <? 0)%Z then NegInfinity else PosInfinity)
    else Finite (Z.sgn n * m).

(** [x > 0] *)
Definition jsPositive (x : JsNum) : bool :=
  match x with
  | Finite n => (0 <? n)%Z
  | PosInfinity => true
  | NegInfinity | NaN => false
  end.

(** [x - y] *)
Definition jsSub (x y : JsNum) : JsNum :=
  match x, y with
  | NaN, _ | _, NaN => NaN
  | Finite a, Finite b => roundDouble (a - b)
  | PosInfinity, PosInfinity | NegInfinity, NegInfinity => NaN
  | PosInfinity, _ | _, NegInfinity => PosInfinity
  | NegInfinity, _ | _, PosInfinity => NegInfinity
  end.

(** [x * y] *)
Definition jsMul (x y : JsNum) : JsNum :=
  let infinite (negative : bool) := if negative then NegInfinity else PosInfinity in
  let timesInfinity (a : Z) (negative : bool) :=
    if (a =? 0)%Z then NaN else infinite (xorb (a <? 0)%Z negative) in
  match x, y with
  | NaN, _ | _, NaN => NaN
  | Finite a, Finite b => roundDouble (a * b)
  | Finite a, PosInfinity | PosInfinity, Finite a => timesInfinity a false
  | Finite a, NegInfinity | NegInfinity, Finite a => timesInfinity a true
  | PosInfinity, PosInfinity | NegInfinity, NegInfinity => PosInfinity
  | PosInfinity, NegInfinity | NegInfinity, PosInfinity => NegInfinity
  end.

(** ** The validated request (types of zod-paginate) *)

Inductive SortDirection : Type := ASC | DESC.

(** [pagination.type]; the adapter only asks whether it is
    ['LIMIT_OFFSET'], [CURSOR] is the other type of zod-paginate. *)
Inductive PaginationType : Type := LIMIT_OFFSET | CURSOR.

Section Adapter.

(** [Scalar] stands for the filter values the adapter hands over unread
    (typed [unknown] in the operator set). *)
Context {Scalar : Type}.

(** The operator and its payload, the union [Condition] discriminated by
    [op]. *)
Inductive ConditionOp : Type :=
| op_null
| op_eq (value : Scalar)
| op_in (value : list Scalar)
| op_contains (value : list string)
| op_gt (value : Scalar)
| op_gte (value : Scalar)
| op_lt (value : Scalar)
| op_lte (value : Scalar)
| op_btw (startValue endValue : Scalar)
| op_ilike (value : string)
| op_sw (value : string).

(** [not_flag] is the field [not?: boolean]; [None] is an absent flag. *)
Record Condition : Type := mkCondition {
  group : string;
  op : ConditionOp;
  not_flag : option bool
}.

Inductive GroupType : Type := and_type | or_type.

(** [WhereNode]: [type: 'filter'] or a group [type: 'and' | 'or'] with
    [items]. *)
Inductive WhereNode : Type :=
| FilterNode (field : string) (condition : Condition)
| GroupNode (type : GroupType) (items : list WhereNode).

Record SortItem : Type := mkSortItem {
  property : string;
  direction : SortDirection
}.

Record Pagination : Type := mkPagination {
  type : PaginationType;
  page : option JsNum;
  limit : option JsNum;
  select : option (list string);
  sortBy : option (list SortItem);
  filters : option WhereNode
}.

(** ** Operator sets, configuration and clauses *)

Context {TColumn TWhereExpr TOrderByExpr : Type}.

(** [DrizzleOperatorSet], lines 30-45.  Every primitive is a function of
    the caller or of Drizzle and may throw; [and] and [or] take their rest
    arguments as a list; [contains] is optional. *)
Record DrizzleOperatorSet : Type := mkOperators {
  o_eq : TColumn -> Scalar -> Result TWhereExpr;
  o_isNull : TColumn -> Result TWhereExpr;
  o_inArray : TColumn -> list Scalar -> Result TWhereExpr;
  o_gt : TColumn -> Scalar -> Result TWhereExpr;
  o_gte : TColumn -> Scalar -> Result TWhereExpr;
  o_lt : TColumn -> Scalar -> Result TWhereExpr;
  o_lte : TColumn -> Scalar -> Result TWhereExpr;
  o_ilike : TColumn -> string -> Result TWhereExpr;
  o_and : list TWhereExpr -> Result TWhereExpr;
  o_or : list TWhereExpr -> Result TWhereExpr;
  o_not : TWhereExpr -> Result TWhereExpr;
  o_asc : TColumn -> Result TOrderByExpr;
  o_desc : TColumn -> Result TOrderByExpr;
  o_contains : option (TColumn -> list string -> Result TWhereExpr)
}.

(** [DrizzleFieldMap], lines 47-50, as the object it is at run time: its
    own properties, of which one may hold [undefined] ([None]), and what
    its prototype chain answers for the other names.  [TColumn] stands for
    every value found where a column is expected. *)
Record DrizzleFieldMap : Type := mkFieldMap {
  ownFields : gmap string (option TColumn);
  inheritedFields : string -> option TColumn
}.

(** [fields[fieldPath]]: the own property when there is one, the inherited
    one otherwise; [None] is [undefined].  A path is mapped, for the
    adapter, when this lookup gives a value. *)
#[global] Instance DrizzleFieldMap_lookup : Lookup string TColumn DrizzleFieldMap :=
  fun fieldPath fields =>
    match ownFields fields !! fieldPath with
    | Some value => value
    | None => inheritedFields fields fieldPath
    end.

(** The same object with nothing inherited: its own properties only. *)
Definition ownOnly (fields : DrizzleFieldMap) : DrizzleFieldMap :=
  mkFieldMap (ownFields fields) (fun _ => None).

(** [BuildDrizzleClausesConfig], lines 52-62. *)
Record BuildDrizzleClausesConfig : Type := mkConfig {
  fields : DrizzleFieldMap;
  operators : DrizzleOperatorSet;
  selectAlias : option (string -> string);
  strictFieldMapping : option bool
}.

(** [DrizzlePaginationClauses], lines 64-70. *)
Record DrizzlePaginationClauses : Type := mkClauses {
  c_select : gmap string TColumn;
  c_where : option TWhereExpr;
  c_orderBy : option (list TOrderByExpr);
  c_limit : option JsNum;
  c_offset : option JsNum
}.

(** ** Field resolution, lines 182-195 *)

Definition getMappedColumn (fieldPath : string) (fields : DrizzleFieldMap)
    (strictFieldMapping : bool) : Result (option TColumn) :=
  match fields !! fieldPath with
  | Some mappedColumn => Ok (Some mappedColumn)
  | None =>
      if strictFieldMapping then Throw (FieldMappingError fieldPath)
      else Ok None
  end.

(** ** The select shape, lines 201-223 *)

(** [collisionIndex === 0 ? baseAlias : `${baseAlias}_${collisionIndex}`] *)
Definition finalAliasOf (baseAlias : string) (collisionIndex : nat) : string :=
  match collisionIndex with
  | O => baseAlias
  | S _ => baseAlias +:+ str underscore +:+ pretty collisionIndex
  end.

(** The name of the accessor every object inherits for its prototype. *)
Definition protoKey : string := "__proto__".

(** [selectShape[finalAlias] = mappedColumn] on the object literal the
    loop fills: an own property is created or overwritten, except under
    the name [__proto__], where the assignment goes to the inherited
    setter and creates no own property. *)
Definition assignProperty (selectShape : gmap string TColumn)
    (finalAlias : string) (mappedColumn : TColumn) : gmap string TColumn :=
  if decide (finalAlias = protoKey) then selectShape
  else <[finalAlias := mappedColumn]> selectShape.

(** The body of the [for] loop, run over the remaining paths with the two
    local maps [selectShape] and [aliasUsageCount] as state. *)
Fixpoint selectLoop (selectedFields : list string) (fields : DrizzleFieldMap)
    (strictFieldMapping : bool) (selectAlias : string -> string)
    (selectShape : gmap string TColumn) (aliasUsageCount : gmap string nat)
    : Result (gmap string TColumn) :=
  match selectedFields with
  | [] => Ok selectShape
  | fieldPath :: rest =>
      mappedColumn ← getMappedColumn fieldPath fields strictFieldMapping;
      match mappedColumn with
      | None => selectLoop rest fields strictFieldMapping selectAlias
                  selectShape aliasUsageCount
      | Some mappedColumn =>
          let baseAlias := selectAlias fieldPath in
          let collisionIndex := default 0 (aliasUsageCount !! baseAlias) in
          let aliasUsageCount := <[baseAlias := collisionIndex + 1]> aliasUsageCount in
          let finalAlias := finalAliasOf baseAlias collisionIndex in
          selectLoop rest fields strictFieldMapping selectAlias
            (assignProperty selectShape finalAlias mappedColumn) aliasUsageCount
      end
  end.

Definition buildSelectShapeInternal (selectedFields : list string)
    (fields : DrizzleFieldMap) (strictFieldMapping : bool)
    (selectAlias : string -> string) : Result (gmap string TColumn) :=
  selectLoop selectedFields fields strictFieldMapping selectAlias ∅ ∅.

(** ** Conditions, lines 228-297 *)

Definition flagSet (flag : option bool) : bool := default false flag.

Definition conditionToDrizzleExpr (condition : Condition) (column : TColumn)
    (operators : DrizzleOperatorSet) : Result TWhereExpr :=
  expression ←
    match op condition with
    | op_null => o_isNull operators column
    | op_eq value => o_eq operators column value
    | op_in value => o_inArray operators column value
    | op_contains value =>
        match o_contains operators with
        | None => Throw UnsupportedOperatorError
        | Some contains => contains column value
        end
    | op_gt value => o_gt operators column value
    | op_gte value => o_gte operators column value
    | op_lt value => o_lt operators column value
    | op_lte value => o_lte operators column value
    | op_btw startValue endValue =>
        lower ← o_gte operators column startValue;
        upper ← o_lte operators column endValue;
        o_and operators [lower; upper]
    | op_ilike value =>
        o_ilike operators column
          (str percent +:+ escapeLike value +:+ str percent)
    | op_sw value =>
        o_ilike operators column (escapeLike value +:+ str percent)
    end;
  if flagSet (not_flag condition) then o_not operators expression
  else Ok expression.

(** ** The filter tree, lines 302-323 *)

(** [.filter(Boolean)] on the compiled children: the present ones, in order. *)
Definition presentOnes {A} (l : list (option A)) : list A := omap id l.

(** Lines 318-322, on the surviving child expressions. *)
Definition combineGroup (type : GroupType) (operators : DrizzleOperatorSet)
    (childExpressions : list TWhereExpr) : Result (option TWhereExpr) :=
  match childExpressions with
  | [] => Ok None
  | [only] => Ok (Some only)
  | _ =>
      match type with
      | and_type => Some <$> o_and operators childExpressions
      | or_type => Some <$> o_or operators childExpressions
      end
  end.

Fixpoint whereNodeToDrizzleExpr (node : WhereNode) (fields : DrizzleFieldMap)
    (operators : DrizzleOperatorSet) (strictFieldMapping : bool)
    : Result (option TWhereExpr) :=
  match node with
  | FilterNode field condition =>
      mappedColumn ← getMappedColumn field fields strictFieldMapping;
      match mappedColumn with
      | None => Ok None
      | Some mappedColumn =>
          Some <$> conditionToDrizzleExpr condition mappedColumn operators
      end
  | GroupNode type items =>
      compiled ← mapM (fun itemNode =>
                   whereNodeToDrizzleExpr itemNode fields operators
                     strictFieldMapping) items;
      combineGroup type operators (presentOnes compiled)
  end.

(** ** Ordering, lines 328-334 and 369-379 *)

Definition directionToOrderExpr (direction : SortDirection) (column : TColumn)
    (operators : DrizzleOperatorSet) : Result TOrderByExpr :=
  match direction with
  | ASC => o_asc operators column
  | DESC => o_desc operators column
  end.

(** The callback of [sortBy?.map(...)], lines 370-378. *)
Definition sortItemToOrderExpr (fields : DrizzleFieldMap)
    (operators : DrizzleOperatorSet) (strictFieldMapping : bool)
    (sortItem : SortItem) : Result (option TOrderByExpr) :=
  mappedColumn ← getMappedColumn (property sortItem) fields strictFieldMapping;
  match mappedColumn with
  | None => Ok None
  | Some mappedColumn =>
      Some <$> directionToOrderExpr (direction sortItem) mappedColumn operators
  end.

(** [pagination.sortBy?.map(...).filter(...)], lines 369-379: [None] when
    [sortBy] is absent. *)
Definition orderByOf (sortBy : option (list SortItem)) (fields : DrizzleFieldMap)
    (operators : DrizzleOperatorSet) (strictFieldMapping : bool)
    : Result (option (list TOrderByExpr)) :=
  match sortBy with
  | None => Ok None
  | Some sortItems =>
      mapped ← mapM (sortItemToOrderExpr fields operators strictFieldMapping)
                 sortItems;
      Ok (Some (presentOnes mapped))
  end.

(** ** The clause bundle, lines 339-400 *)

(** Lines 383-391. *)
Definition offsetOf (pagination : Pagination) : option JsNum :=
  match type pagination, page pagination, limit pagination with
  | LIMIT_OFFSET, Some page, Some limit =>
      let safePage := if jsPositive page then page else Finite 1 in
      Some (jsMul (jsSub safePage (Finite 1)) limit)
  | _, _, _ => None
  end.

Definition buildDrizzleClausesFromPagination (pagination : Pagination)
    (config : BuildDrizzleClausesConfig) : Result DrizzlePaginationClauses :=
  let strict := default true (strictFieldMapping config) in
  let aliasBuilder := default defaultSelectAlias (selectAlias config) in
  select ← buildSelectShapeInternal (default [] (select pagination))
             (fields config) strict aliasBuilder;
  where_ ← match filters pagination with
            | Some node =>
                whereNodeToDrizzleExpr node (fields config) (operators config) strict
            | None => Ok None
            end;
  orderBy ← orderByOf (sortBy pagination) (fields config) (operators config) strict;
  Ok {| c_select := select;
        c_where := where_;
        c_orderBy := match orderBy with
                     | Some ((_ :: _) as orderBy) => Some orderBy
                     | _ => None
                     end;
        c_limit := limit pagination;
        c_offset := offsetOf pagination |}.

End Adapter.

Arguments ConditionOp : clear implicits.
Arguments Condition : clear implicits.
Arguments WhereNode : clear implicits.
Arguments Pagination : clear implicits.
Arguments DrizzleOperatorSet : clear implicits.
Arguments DrizzleFieldMap : clear implicits.
Arguments BuildDrizzleClausesConfig : clear implicits.
Arguments DrizzlePaginationClauses : clear implicits.

(** ** Drizzle's builders and the two built-in operator sets *)

(** drizzle-orm is an external dependency.  Its columns are opaque handles
    and an [SQL] value records the builder call that made it.  A member of
    [Object.prototype] can turn up where a column is expected; it is a
    function, or for [__proto__] the prototype itself. *)
Inductive Column : Type :=
| column (table name : string)
| prototypeMember (name : string).

(** The property names [Object.prototype] answers. *)
Definition objectPrototypeNames : list string :=
  ["constructor"; "__defineGetter__"; "__defineSetter__"; "hasOwnProperty";
   "__lookupGetter__"; "__lookupSetter__"; "isPrototypeOf";
   "propertyIsEnumerable"; "toString"; "valueOf"; "__proto__";
   "toLocaleString"].

Definition objectPrototype (name : string) : option Column :=
  if decide (name ∈ objectPrototypeNames) then Some (prototypeMember name)
  else None.

(** The object literal [{ path: column, ... }], none of whose entries is
    named [__proto__]: its own properties and [Object.prototype] behind
    them. *)
Definition objectLiteral (properties : gmap string Column) : DrizzleFieldMap Column :=
  mkFieldMap (Some <$> properties) objectPrototype.

#[global] Instance Column_eq_dec : EqDecision Column.
Proof. solve_decision. Defined.

Section Drizzle.

Context {Scalar : Type}.

Inductive SQL : Type :=
| SqlEq (c : Column) (value : Scalar)
| SqlIsNull (c : Column)
| SqlInArray (c : Column) (values : list Scalar)
| SqlGt (c : Column) (value : Scalar)
| SqlGte (c : Column) (value : Scalar)
| SqlLt (c : Column) (value : Scalar)
| SqlLte (c : Column) (value : Scalar)
| SqlIlike (c : Column) (pattern : string)
| SqlLike (c : Column) (pattern : string)
| SqlArrayContains (c : Column) (values : list string)
| SqlAnd (conditions : list SQL)
| SqlOr (conditions : list SQL)
| SqlNot (condition : SQL)
| SqlAsc (c : Column)
| SqlDesc (c : Column).

(** Of the builders the adapter imports, [arrayContains] throws when it is
    given an empty list; [and(...)] and [or(...)] give [undefined] when they
    get no condition; the others return what they build ([inArray] of
    current Drizzle accepts the empty list). *)
Definition drizzleArrayContains (c : Column) (values : list string) : Result SQL :=
  match values with
  | [] => Throw (mkError "arrayContains requires at least one value")
  | _ => Ok (SqlArrayContains c values)
  end.

Definition drizzleAnd (expressions : list SQL) : option SQL :=
  match expressions with
  | [] => None
  | _ => Some (SqlAnd expressions)
  end.

Definition drizzleOr (expressions : list SQL) : option SQL :=
  match expressions with
  | [] => None
  | _ => Some (SqlOr expressions)
  end.

(** [andSql], lines 103-107. *)
Definition andSql (expressions : list SQL) : Result SQL :=
  match drizzleAnd expressions with
  | None => Throw EmptyAndError
  | Some result => Ok result
  end.

(** [orSql], lines 112-116. *)
Definition orSql (expressions : list SQL) : Result SQL :=
  match drizzleOr expressions with
  | None => Throw EmptyOrError
  | Some result => Ok result
  end.

(** [createPgDrizzleOperators], lines 122-139. *)
Definition createPgDrizzleOperators : DrizzleOperatorSet Scalar Column SQL SQL :=
  {| o_eq c value := Ok (SqlEq c value);
     o_isNull c := Ok (SqlIsNull c);
     o_inArray c values := Ok (SqlInArray c values);
     o_gt c value := Ok (SqlGt c value);
     o_gte c value := Ok (SqlGte c value);
     o_lt c value := Ok (SqlLt c value);
     o_lte c value := Ok (SqlLte c value);
     o_ilike c pattern := Ok (SqlIlike c pattern);
     o_and := andSql;
     o_or := orSql;
     o_not condition := Ok (SqlNot condition);
     o_asc c := Ok (SqlAsc c);
     o_desc c := Ok (SqlDesc c);
     o_contains := Some drizzleArrayContains |}.

(** [createMySqlDrizzleOperators], lines 146-162: [ilike] is [like] and
    there is no [contains]. *)
Definition createMySqlDrizzleOperators : DrizzleOperatorSet Scalar Column SQL SQL :=
  {| o_eq c value := Ok (SqlEq c value);
     o_isNull c := Ok (SqlIsNull c);
     o_inArray c values := Ok (SqlInArray c values);
     o_gt c value := Ok (SqlGt c value);
     o_gte c value := Ok (SqlGte c value);
     o_lt c value := Ok (SqlLt c value);
     o_lte c value := Ok (SqlLte c value);
     o_ilike c pattern := Ok (SqlLike c pattern);
     o_and := andSql;
     o_or := orSql;
     o_not condition := Ok (SqlNot condition);
     o_asc c := Ok (SqlAsc c);
     o_desc c := Ok (SqlDesc c);
     o_contains := None |}.

Inductive DrizzleDialect : Type := pg | mysql.

(** [getOperatorsForDialect], lines 405-408. *)
Definition getOperatorsForDialect (dialect : DrizzleDialect)
    : DrizzleOperatorSet Scalar Column SQL SQL :=
  match dialect with
  | pg => createPgDrizzleOperators
  | mysql => createMySqlDrizzleOperators
  end.

(** ** Applying the clauses to a query, lines 413-451 *)

(** [DrizzleDynamicQuery], lines 77-82: the four chained methods of a query
    object of type [Q]. *)
Class DrizzleDynamicQuery (Q : Type) : Type := {
  q_where : Q -> SQL -> Q;
  q_orderBy : Q -> list SQL -> Q;
  q_limit : Q -> JsNum -> Q;
  q_offset : Q -> JsNum -> Q
}.

(** [ApplyDrizzlePaginationOnQueryConfig], lines 88-98; [buildQuery] stands
    for the caller's callback followed by [$dynamic()]. *)
Record ApplyDrizzlePaginationOnQueryConfig (Q : Type) : Type := mkApplyConfig {
  a_dialect : DrizzleDialect;
  a_buildQuery : gmap string Column -> Q;
  a_fields : DrizzleFieldMap Column;
  a_strictFieldMapping : option bool;
  a_selectAlias : option (string -> string);
  a_operators : option (DrizzleOperatorSet Scalar Column SQL SQL)
}.
Arguments mkApplyConfig {Q} _ _ _ _ _ _.
Arguments a_dialect {Q} _.
Arguments a_buildQuery {Q} _ _.
Arguments a_fields {Q} _.
Arguments a_strictFieldMapping {Q} _.
Arguments a_selectAlias {Q} _.
Arguments a_operators {Q} _.

Definition applyDrizzlePaginationOnQuery {Q} `{DrizzleDynamicQuery Q}
    (pagination : Pagination Scalar)
    (config : ApplyDrizzlePaginationOnQueryConfig Q)
    : Result (Q * DrizzlePaginationClauses Column SQL SQL) :=
  let operators :=
    default (getOperatorsForDialect (a_dialect config)) (a_operators config) in
  clauses ← buildDrizzleClausesFromPagination pagination
              {| fields := a_fields config;
                 operators := operators;
                 selectAlias := a_selectAlias config;
                 strictFieldMapping := a_strictFieldMapping config |};
  let query := a_buildQuery config (c_select clauses) in
  let query := match c_where clauses with
               | Some expression => q_where query expression
               | None => query
               end in
  let query := match c_orderBy clauses with
               | Some ((_ :: _) as orderBy) => q_orderBy query orderBy
               | _ => query
               end in
  let query := match c_limit clauses with
               | Some value => q_limit query value
               | None => query
               end in
  let query := match c_offset clauses with
               | Some value => q_offset query value
               | None => query
               end in
  Ok (query, clauses).

End Drizzle.

Arguments SQL : clear implicits.
Arguments DrizzleDynamicQuery : clear implicits.
Arguments ApplyDrizzlePaginationOnQueryConfig : clear implicits.
Arguments mkApplyConfig {Scalar Q} _ _ _ _ _ _.
Arguments a_dialect {Scalar Q} _.
Arguments a_buildQuery {Scalar Q} _ _.
Arguments a_fields {Scalar Q} _.
Arguments a_strictFieldMapping {Scalar Q} _.
Arguments a_selectAlias {Scalar Q} _.
Arguments a_operators {Scalar Q} _.

(** ** Fixtures of the unit tests *)

(** Filter values of the tests: numbers and strings. *)
Inductive JsValue : Type :=
| JsNumber (n : Z)
| JsString (s : string).

(** The [users] table of the tests. *)
Definition users_id : Column := column "users" "id".
Definition users_name : Column := column "users" "name".
Definition users_age : Column := column "users" "age".
Definition users_tags : Column := column "users" "tags".

(** [QuerySpy]: the calls received, oldest first. *)
Record QuerySpy : Type := mkSpy {
  whereCalls : list (SQL JsValue);
  orderByCalls : list (list (SQL JsValue));
  limitCalls : list JsNum;
  offsetCalls : list JsNum
}.

Definition newQuerySpy : QuerySpy := mkSpy [] [] [] [].

#[global] Instance QuerySpy_query : DrizzleDynamicQuery JsValue QuerySpy := {
  q_where q e := mkSpy (whereCalls q ++ [e]) (orderByCalls q) (limitCalls q) (offsetCalls q);
  q_orderBy q es := mkSpy (whereCalls q) (orderByCalls q ++ [es]) (limitCalls q) (offsetCalls q);
  q_limit q n := mkSpy (whereCalls q) (orderByCalls q) (limitCalls q ++ [n]) (offsetCalls q);
  q_offset q n := mkSpy (whereCalls q) (orderByCalls q) (limitCalls q) (offsetCalls q ++ [n])
}.

(** A request with only [type], [page] and [limit]. *)
Definition pageRequest (t : PaginationType) (page limit : option JsNum)
    : Pagination JsValue :=
  mkPagination t page limit None None None.

(** Three mapped paths: the test's two colliding ones and a third whose
    own alias is the suffixed alias of the second. *)
Definition collidingSelect : list string :=
  ["profile.name"; "profile_name"; "profile_name_1"].

Definition collidingFields : DrizzleFieldMap Column :=
  objectLiteral
    {[ "profile.name" := users_name;
       "profile_name" := users_age;
       "profile_name_1" := users_id ]}.

Definition nameOnly : DrizzleFieldMap Column :=
  objectLiteral {[ "name" := users_name ]}.

Definition cond (o : ConditionOp JsValue) : Condition JsValue :=
  mkCondition "g" o None.

Definition pgConfig (fields : DrizzleFieldMap Column) (strict : option bool)
    : BuildDrizzleClausesConfig JsValue Column (SQL JsValue) (SQL JsValue) :=
  mkConfig fields createPgDrizzleOperators None strict.

Definition unknownFilter : WhereNode JsValue :=
  FilterNode "unknown" (cond (op_eq (JsString "x"))).

Definition nameFilter : WhereNode JsValue :=
  FilterNode "name" (cond (op_eq (JsString "alice"))).

Definition bobFilter : WhereNode JsValue :=
  FilterNode "name" (cond (op_eq (JsString "bob"))).

Definition containsCondition : Condition JsValue :=
  mkCondition "name" (op_contains ["x"]) None.

(** The mapping and the [$contains] leaf of the test on the PostgreSQL
    operators, and the same leaf with no value. *)
Definition tagsFields : DrizzleFieldMap Column :=
  objectLiteral {[ "name" := users_name; "tags" := users_tags ]}.


Definition noTagFilter : WhereNode JsValue :=
  FilterNode "tags" (mkCondition "tags" (op_contains []) None).


(** A request sorted on a mapped key, an unmapped one and the mapped one
    again, the other way round. *)
Definition sortedRequest : Pagination JsValue :=
  mkPagination LIMIT_OFFSET (Some (Finite 1)) (Some (Finite 10)) None
    (Some [mkSortItem "name" DESC; mkSortItem "unknownSort" ASC;
           mkSortItem "name" ASC])
    None.

(** The bundle of [sortedRequest] on the mapping [nameOnly], under
    permissive mapping. *)
Definition sortedClauses
    : DrizzlePaginationClauses Column (SQL JsValue) (SQL JsValue) :=
  mkClauses ∅ None (Some [SqlDesc users_name; SqlAsc users_name])
    (Some (Finite 10)) (Some (Finite 0)).

(** The request of the first unit test, with a select list added. *)
Definition fullRequest : Pagination JsValue :=
  mkPagination LIMIT_OFFSET (Some (Finite 2)) (Some (Finite 10)) (Some ["name"])
    (Some [mkSortItem "name" DESC]) (Some nameFilter).

(** The bundle of [fullRequest] on the mapping [nameOnly]. *)
Definition fullClauses
    : DrizzlePaginationClauses Column (SQL JsValue) (SQL JsValue) :=
  mkClauses {[ "name" := users_name ]}
    (Some (SqlEq users_name (JsString "alice")))
    (Some [SqlDesc users_name]) (Some (Finite 10)) (Some (Finite 10)).

(** The request of the test on unknown fields. *)
Definition unknownRequest : Pagination JsValue :=
  mkPagination LIMIT_OFFSET (Some (Finite 1)) (Some (Finite 10)) (Some ["unknownSelect"])
    (Some [mkSortItem "unknownSort" ASC])
    (Some (FilterNode "unknownFilter" (cond (op_eq (JsString "x"))))).

(** The two colliding paths of the select test and their mapping. *)
Definition profileSelect : list string := ["profile.name"; "profile_name"].

Definition profileFields : DrizzleFieldMap Column :=
  objectLiteral {[ "profile.name" := users_name; "profile_name" := users_age ]}.

(** The configuration of [applyDrizzlePaginationOnQuery] in the tests: the
    spy as query, no alias function and no operator override. *)
Definition testConfig (dialect : DrizzleDialect) (fields : DrizzleFieldMap Column)
    (strict : option bool) : ApplyDrizzlePaginationOnQueryConfig JsValue QuerySpy :=
  mkApplyConfig dialect (fun _ => newQuerySpy) fields strict None None.

(** ** Definitions used to state the properties *)

(** The escaping the specification describes: one pass over the value
    that puts a backslash before each backslash, percent sign and
    underscore and leaves every other character alone. *)
Definition isLikeMeta (c : ascii) : bool :=
  Ascii.eqb c backslash || Ascii.eqb c percent || Ascii.eqb c underscore.

Fixpoint escapedSpec (value : string) : string :=
  match value with
  | EmptyString => EmptyString
  | String c rest =>
      if isLikeMeta c then String backslash (String c (escapedSpec rest))
      else String c (escapedSpec rest)
  end.

(** How a LIKE pattern with backslash as escape character is read when it
    matches one text only: a backslash makes the next character literal, a
    bare percent sign or underscore is a wildcard ([None]). *)
Fixpoint likeLiteral (pattern : string) : option string :=
  match pattern with
  | EmptyString => Some EmptyString
  | String c rest =>
      if Ascii.eqb c backslash then
        match rest with
        | EmptyString => None
        | String d rest' => String d <$> likeLiteral rest'
        end
      else if Ascii.eqb c percent || Ascii.eqb c underscore then None
      else String c <$> likeLiteral rest
  end.

(** Line 295 on an expression already built: the [not] primitive when the
    flag is set. *)
Definition negateIf {Scalar TColumn TWhereExpr TOrderByExpr}
    (operators : DrizzleOperatorSet Scalar TColumn TWhereExpr TOrderByExpr)
    (flag : option bool) (expression : TWhereExpr) : Result TWhereExpr :=
  if flagSet flag then o_not operators expression else Ok expression.

(** The [and] and [or] of an operator set return on every non-empty list,
    as [andSql] and [orSql] do. *)
Definition combinesNonEmpty {Scalar TColumn TWhereExpr TOrderByExpr}
    (operators : DrizzleOperatorSet Scalar TColumn TWhereExpr TOrderByExpr)
    : Prop :=
  forall expressions : list TWhereExpr,
    expressions <> [] ->
    returns (o_and operators expressions) /\ returns (o_or operators expressions).

(** A condition whose operator the two built-in operator sets build with
    the same Drizzle function: every operator but [$ilike], [$sw] and
    [$contains]. *)
Definition sameInBothDialects {Scalar} (condition : Condition Scalar) : bool :=
  match op condition with
  | op_ilike _ | op_sw _ | op_contains _ => false
  | _ => true
  end.

(** A query object that records the calls it receives, in order. *)
Inductive QueryCall (Scalar : Type) : Type :=
| WhereCall (expression : SQL Scalar)
| OrderByCall (expressions : list (SQL Scalar))
| LimitCall (value : JsNum)
| OffsetCall (value : JsNum).
Arguments WhereCall {Scalar} expression.
Arguments OrderByCall {Scalar} expressions.
Arguments LimitCall {Scalar} value.
Arguments OffsetCall {Scalar} value.

#[global] Instance QueryCalls_query {Scalar}
    : DrizzleDynamicQuery Scalar (list (QueryCall Scalar)) := {
  q_where q e := q ++ [WhereCall e];
  q_orderBy q es := q ++ [OrderByCall es];
  q_limit q n := q ++ [LimitCall n];
  q_offset q n := q ++ [OffsetCall n]
}.

(** The same configuration with a recording query. *)
Definition recordingConfig (dialect : DrizzleDialect)
    (fields : DrizzleFieldMap Column) (strict : option bool)
    : ApplyDrizzlePaginationOnQueryConfig JsValue (list (QueryCall JsValue)) :=
  mkApplyConfig dialect (fun _ => []) fields strict None None.

(** Every primitive of an operator set other than [contains] returns:
    the builders on all their arguments, [and] and [or] on every non-empty
    list. *)
Definition primitivesReturn {Scalar TColumn TWhereExpr TOrderByExpr}
    (operators : DrizzleOperatorSet Scalar TColumn TWhereExpr TOrderByExpr)
    : Prop :=
  (forall c value, returns (o_eq operators c value))
  /\ (forall c, returns (o_isNull operators c))
  /\ (forall c values, returns (o_inArray operators c values))
  /\ (forall c value, returns (o_gt operators c value))
  /\ (forall c value, returns (o_gte operators c value))
  /\ (forall c value, returns (o_lt operators c value))
  /\ (forall c value, returns (o_lte operators c value))
  /\ (forall c pattern, returns (o_ilike operators c pattern))
  /\ (forall expression, returns (o_not operators expression))
  /\ (forall c, returns (o_asc operators c))
  /\ (forall c, returns (o_desc operators c))
  /\ combinesNonEmpty operators.

(** The order expressions a sort list stands for: in request order, for
    each entry whose field has a value in the mapping, what [asc] gives on
    that value when the entry is ascending and what [desc] gives when it
    is descending; the other entries give nothing. *)
Inductive orderedAs {Scalar TColumn TWhereExpr TOrderByExpr}
    (fields : DrizzleFieldMap TColumn)
    (operators : DrizzleOperatorSet Scalar TColumn TWhereExpr TOrderByExpr)
    : list SortItem -> list TOrderByExpr -> Prop :=
| orderedAs_nil : orderedAs fields operators [] []
| orderedAs_unmapped path direction rest expressions :
    fields !! path = None ->
    orderedAs fields operators rest expressions ->
    orderedAs fields operators (mkSortItem path direction :: rest) expressions
| orderedAs_asc path c expression rest expressions :
    fields !! path = Some c ->
    o_asc operators c = Ok expression ->
    orderedAs fields operators rest expressions ->
    orderedAs fields operators (mkSortItem path ASC :: rest)
      (expression :: expressions)
| orderedAs_desc path c expression rest expressions :
    fields !! path = Some c ->
    o_desc operators c = Ok expression ->
    orderedAs fields operators rest expressions ->
    orderedAs fields operators (mkSortItem path DESC :: rest)
      (expression :: expressions).

(** The children of a group that survive: the present results of the
    compiled children, in their order, the absent ones left out. *)
Inductive survivorsOf {A} : list (option A) -> list A -> Prop :=
| survivorsOf_nil : survivorsOf [] []
| survivorsOf_absent compiled survivors :
    survivorsOf compiled survivors -> survivorsOf (None :: compiled) survivors
| survivorsOf_present expression compiled survivors :
    survivorsOf compiled survivors ->
    survivorsOf (Some expression :: compiled) (expression :: survivors).

(** A leaf [FilterNode field condition] occurs in a tree. *)
Inductive leafOf {Scalar} (field : string) (condition : Condition Scalar)
    : WhereNode Scalar -> Prop :=
| leafOf_here : leafOf field condition (FilterNode field condition)
| leafOf_item type items item :
    item ∈ items -> leafOf field condition item ->
    leafOf field condition (GroupNode type items).


(** The character [c] occurs in [s]. *)
Fixpoint occursIn (c : ascii) (s : string) : bool :=
  match s with
  | EmptyString => false
  | String x rest => Ascii.eqb x c || occursIn c rest
  end.

(** The paths of a select list that have a column, with the column. *)
Definition mappedPaths {TColumn} (selectedFields : list string)
    (fields : DrizzleFieldMap TColumn) : list (string * TColumn) :=
  omap (fun fieldPath => pair fieldPath <$> fields !! fieldPath) selectedFields.

(** The number of entries of [l] whose base alias is [baseAlias]. *)
Definition aliasCount {TColumn} (selectAlias : string -> string)
    (baseAlias : string) (l : list (string * TColumn)) : nat :=
  length (filter (fun entry => selectAlias entry.1 = baseAlias) l).

(** The assignments [selectShape[finalAlias] = mappedColumn] for the mapped
    paths when the loop is entered with the counters [aliasUsageCount]: the
    i-th mapped path gets its base alias with the collision index made of
    its counter and of the number of earlier mapped paths of the same base
    alias. *)
Definition aliasedFrom {TColumn} (selectAlias : string -> string)
    (aliasUsageCount : gmap string nat) (mapped : list (string * TColumn))
    : list (string * TColumn) :=
  imap (fun i entry =>
          let baseAlias := selectAlias entry.1 in
          (finalAliasOf baseAlias
             (default 0 (aliasUsageCount !! baseAlias)
              + aliasCount selectAlias baseAlias (take i mapped)),
           entry.2))
    mapped.

(** The assignments the specification asks for: within one build, the
    first mapped path of a base alias keeps it and the N-th later one gets
    the suffix [_N]. *)
Definition aliasedSpec {TColumn} (selectAlias : string -> string)
    (mapped : list (string * TColumn)) : list (string * TColumn) :=
  aliasedFrom selectAlias ∅ mapped.

(** Assignments to an object, oldest first. *)
Definition assignAll {TColumn} (selectShape : gmap string TColumn)
    (writes : list (string * TColumn)) : gmap string TColumn :=
  foldl (fun shape entry => assignProperty shape entry.1 entry.2)
    selectShape writes.

(** The object with the properties [writes], oldest first: a later entry
    of the same key replaces the earlier one. *)
Definition insertAll {TColumn} (writes : list (string * TColumn))
    : gmap string TColumn :=
  foldl (fun shape entry => <[entry.1 := entry.2]> shape) ∅ writes.

(** * Properties *)

(** ** The result monad and [mapM] *)

Lemma bind_Ok {A B} (f : A -> Result B) (a : A) : (Ok a ≫= f) = f a.
Proof. reflexivity. Qed.

Lemma bind_Throw {A B} (f : A -> Result B) (e : Error) : (Throw e ≫= f) = Throw e.
Proof. reflexivity. Qed.

Lemma fmap_Ok_inv {A B} (f : A -> B) (m : Result A) (b : B) :
  f <$> m = Ok b -> exists a, m = Ok a /\ b = f a.
Proof. destruct m as [a|e]; intros H; inversion H; eauto. Qed.

Lemma returns_Ok {A} (m : Result A) : returns m <-> exists a, m = Ok a.
Proof.
  destruct m as [a|e]; simpl; split; eauto; try tauto.
  intros [a H]; discriminate.
Qed.

Lemma throws_Throw {A} (m : Result A) : throws m <-> exists e, m = Throw e.
Proof.
  destruct m as [a|e]; simpl; split; eauto; try tauto.
  intros [e H]; discriminate.
Qed.

Lemma mapM_nil {A B} (f : A -> Result B) : mapM f [] = Ok [].
Proof. reflexivity. Qed.

Lemma mapM_cons {A B} (f : A -> Result B) (x : A) (l : list A) :
  mapM f (x :: l) = (y ← f x; k ← mapM f l; Ok (y :: k)).
Proof. reflexivity. Qed.

(** [l.map(f)] returns when [f] returns on every element, and then holds
    the results in order. *)
Lemma mapM_Ok {A B} (f : A -> Result B) (l : list A) (rs : list B) :
  mapM f l = Ok rs <-> Forall2 (fun x r => f x = Ok r) l rs.
Proof.
  revert rs; induction l as [|x l IH]; intros rs.
  - rewrite mapM_nil; split.
    + intros [= <-]; constructor.
    + intros H; inversion H; reflexivity.
  - rewrite mapM_cons; split.
    + destruct (f x) as [y|e] eqn:Hx; [|discriminate].
      rewrite bind_Ok.
      destruct (mapM f l) as [k|e] eqn:Hl; [|discriminate].
      intros [= <-]; constructor; [assumption|]. by apply IH.
    + intros H; inversion H as [|? r ? k Hx Hl]; subst.
      rewrite Hx, bind_Ok. apply IH in Hl. by rewrite Hl.
Qed.

(** [l.map(f)] throws what [f] throws on the first element it fails on. *)
Lemma mapM_Throw {A B} (f : A -> Result B) (pre post : list A) (x : A) (e : Error) :
  Forall (fun y => returns (f y)) pre -> f x = Throw e ->
  mapM f (pre ++ x :: post) = Throw e.
Proof.
  intros Hpre Hx; induction Hpre as [|y pre Hy _ IH]; cbn [app].
  - by rewrite mapM_cons, Hx.
  - rewrite mapM_cons. apply returns_Ok in Hy as [r ->].
    by rewrite bind_Ok, IH.
Qed.

Lemma mapM_returns {A B} (f : A -> Result B) (l : list A) :
  Forall (fun x => returns (f x)) l -> returns (mapM f l).
Proof.
  induction 1 as [|x l Hx _ IH]; [exact I|].
  rewrite mapM_cons. apply returns_Ok in Hx as [y ->].
  apply returns_Ok in IH as [k ->]. exact I.
Qed.


Lemma mapM_Throw_inv {A B} (f : A -> Result B) (l : list A) (e : Error) :
  mapM f l = Throw e ->
  exists pre x post,
    l = pre ++ x :: post /\ Forall (fun y => returns (f y)) pre /\ f x = Throw e.
Proof.
  induction l as [|y l IH]; [discriminate|].
  rewrite mapM_cons. destruct (f y) as [r|e'] eqn:Hy.
  - rewrite bind_Ok. destruct (mapM f l) as [k|e''] eqn:Hl; [discriminate|].
    intros [= ->]. destruct (IH eq_refl) as (pre & x & post & -> & Hpre & Hx).
    exists (y :: pre), x, post. repeat split; [|done].
    constructor; [by rewrite Hy|done].
  - intros [= ->]. exists [], y, l. repeat split; [constructor|done].
Qed.


Lemma mapM_app {A B} (f : A -> Result B) (l1 l2 : list A) :
  mapM f (l1 ++ l2) = (r1 ← mapM f l1; r2 ← mapM f l2; Ok (r1 ++ r2)).
Proof.
  induction l1 as [|x l1 IH]; cbn [app].
  - rewrite mapM_nil, bind_Ok. by destruct (mapM f l2).
  - rewrite !mapM_cons. destruct (f x) as [y|e]; [|done].
    rewrite !bind_Ok, IH. destruct (mapM f l1) as [r1|e]; [|done].
    rewrite !bind_Ok. by destruct (mapM f l2).
Qed.


Lemma mapM_throws_elem {A B} (f : A -> Result B) (l : list A) (x : A) :
  x ∈ l -> throws (f x) -> throws (mapM f l).
Proof.
  induction l as [|y l IH]; intros Hin Hx; [by apply elem_of_nil in Hin|].
  rewrite mapM_cons. destruct (f y) as [r|e] eqn:Hy; [|exact I].
  rewrite bind_Ok. apply elem_of_cons in Hin as [->|Hin].
  - rewrite Hy in Hx; destruct Hx.
  - specialize (IH Hin Hx). by destruct (mapM f l).
Qed.

(** ** Escaping of LIKE patterns *)

Lemma isLikeMeta_false c :
  isLikeMeta c = false ->
  Ascii.eqb c backslash = false /\ Ascii.eqb c percent = false
  /\ Ascii.eqb c underscore = false.
Proof.
  unfold isLikeMeta.
  destruct (Ascii.eqb c backslash), (Ascii.eqb c percent),
    (Ascii.eqb c underscore); simpl; intros; try discriminate; auto.
Qed.

Lemma isLikeMeta_true c :
  isLikeMeta c = true -> c = backslash \/ c = percent \/ c = underscore.
Proof.
  unfold isLikeMeta.
  destruct (Ascii.eqb_spec c backslash); [auto|].
  destruct (Ascii.eqb_spec c percent); [auto|].
  destruct (Ascii.eqb_spec c underscore); [auto|]. discriminate.
Qed.

(** The three passes of [escapeLike] act on the first character as one
    pass does: the backslashes a pass adds are not touched by a later one. *)
Lemma escapeLike_cons c rest :
  escapeLike (String c rest) =
  if isLikeMeta c then String backslash (String c (escapeLike rest))
  else String c (escapeLike rest).
Proof.
  destruct (isLikeMeta c) eqn:Hmeta.
  - apply isLikeMeta_true in Hmeta as [->|[->| ->]]; reflexivity.
  - apply isLikeMeta_false in Hmeta as (H1 & H2 & H3).
    unfold escapeLike. cbn [replaceAll]. rewrite H1.
    cbn [replaceAll]. rewrite H2. cbn [replaceAll]. by rewrite H3.
Qed.

Lemma escapeLike_escapedSpec value : escapeLike value = escapedSpec value.
Proof.
  induction value as [|c rest IH]; [reflexivity|].
  rewrite escapeLike_cons. cbn [escapedSpec]. by rewrite IH.
Qed.

Lemma likeLiteral_escapedSpec value : likeLiteral (escapedSpec value) = Some value.
Proof.
  induction value as [|c rest IH]; [reflexivity|].
  cbn [escapedSpec]. destruct (isLikeMeta c) eqn:Hmeta.
  - cbn [likeLiteral]. rewrite Ascii.eqb_refl. by rewrite IH.
  - apply isLikeMeta_false in Hmeta as (H1 & H2 & H3).
    cbn [likeLiteral]. rewrite H1, H2, H3. simpl. by rewrite IH.
Qed.

(** ** Field resolution *)

Section Properties.

Context {Scalar TColumn TWhereExpr TOrderByExpr : Type}.

Abbreviation Operators := (DrizzleOperatorSet Scalar TColumn TWhereExpr TOrderByExpr).

Implicit Types (fields : DrizzleFieldMap TColumn) (operators : Operators).
Implicit Types (node : WhereNode Scalar) (condition : Condition Scalar).

Lemma getMappedColumn_mapped fieldPath fields strict (c : TColumn) :
  fields !! fieldPath = Some c ->
  getMappedColumn fieldPath fields strict = Ok (Some c).
Proof. unfold getMappedColumn; by intros ->. Qed.

Lemma getMappedColumn_strict fieldPath fields :
  fields !! fieldPath = None ->
  getMappedColumn fieldPath fields true = Throw (FieldMappingError fieldPath).
Proof. unfold getMappedColumn; by intros ->. Qed.

Lemma getMappedColumn_permissive fieldPath fields :
  getMappedColumn fieldPath fields false = Ok (fields !! fieldPath).
Proof. unfold getMappedColumn; by destruct (fields !! fieldPath). Qed.

Lemma FieldMappingError_names fieldPath :
  exists before after,
    message (FieldMappingError fieldPath) = before +:+ fieldPath +:+ after.
Proof.
  exists ("No Drizzle field mapping found for " +:+ dquote), dquote.
  reflexivity.
Qed.

(** ** The filter tree *)

Lemma whereNode_filter field condition fields operators strict :
  whereNodeToDrizzleExpr (FilterNode field condition) fields operators strict =
  (mappedColumn ← getMappedColumn field fields strict;
   match mappedColumn with
   | None => Ok None
   | Some mappedColumn =>
       Some <$> conditionToDrizzleExpr condition mappedColumn operators
   end).
Proof. reflexivity. Qed.

Lemma whereNode_group type items fields operators strict :
  whereNodeToDrizzleExpr (GroupNode type items) fields operators strict =
  (compiled ← mapM (fun itemNode =>
                 whereNodeToDrizzleExpr itemNode fields operators strict) items;
   combineGroup type operators (presentOnes compiled)).
Proof. reflexivity. Qed.

(** X20: a filter leaf on a path for which the mapping has no value, own
    or inherited, fails under strict mapping with the error whose message
    contains the path, and compiles to absent, without error, under
    permissive mapping. *)
Theorem unmapped_leaf_strict_or_pruned field condition fields operators :
  fields !! field = None ->
  whereNodeToDrizzleExpr (FilterNode field condition) fields operators true
    = Throw (FieldMappingError field)
  /\ (exists before after,
        message (FieldMappingError field) = before +:+ field +:+ after)
  /\ whereNodeToDrizzleExpr (FilterNode field condition) fields operators false
    = Ok None.
Proof.
  intros Hnone; split; [|split].
  - by rewrite whereNode_filter, getMappedColumn_strict.
  - apply FieldMappingError_names.
  - by rewrite whereNode_filter, getMappedColumn_permissive, Hnone.
Qed.

Lemma combineGroup_none type operators :
  combineGroup type operators [] = Ok None.
Proof. reflexivity. Qed.

Lemma combineGroup_one type operators (only : TWhereExpr) :
  combineGroup type operators [only] = Ok (Some only).
Proof. reflexivity. Qed.

Lemma combineGroup_many type operators (es : list TWhereExpr) :
  2 <= length es ->
  combineGroup type operators es =
  Some <$> match type with
           | and_type => o_and operators es
           | or_type => o_or operators es
           end.
Proof.
  destruct es as [|e1 [|e2 es]]; simpl; intros H; try lia.
  by destruct type.
Qed.

Lemma survivorsOf_presentOnes {A} (compiled : list (option A)) survivors :
  survivorsOf compiled survivors -> presentOnes compiled = survivors.
Proof.
  unfold presentOnes. induction 1 as [|compiled survivors _ IH|e compiled survivors _ IH].
  - reflexivity.
  - exact IH.
  - cbn [omap list_omap]. simpl. by rewrite <- IH.
Qed.

(** C5: a group compiles its children and leaves out those that compiled
    to absent; it gives absent when no child is left, the only one when one
    is left, and the [and]/[or] primitive of the group applied to all of
    them, in order, when two or more are left. *)
Theorem group_combines_surviving_children
    type items (compiled : list (option TWhereExpr)) survivors
    fields operators strict :
  Forall2 (fun item result =>
             whereNodeToDrizzleExpr item fields operators strict = Ok result)
    items compiled ->
  survivorsOf compiled survivors ->
  (survivors = [] ->
   whereNodeToDrizzleExpr (GroupNode type items) fields operators strict
     = Ok None)
  /\ (forall only, survivors = [only] ->
      whereNodeToDrizzleExpr (GroupNode type items) fields operators strict
        = Ok (Some only))
  /\ (2 <= length survivors ->
      whereNodeToDrizzleExpr (GroupNode type items) fields operators strict
        = Some <$> match type with
                   | and_type => o_and operators survivors
                   | or_type => o_or operators survivors
                   end).
Proof.
  intros Hitems Hsurvivors. apply mapM_Ok in Hitems.
  apply survivorsOf_presentOnes in Hsurvivors.
  rewrite whereNode_group, Hitems, bind_Ok, Hsurvivors.
  split; [|split].
  - intros ->. apply combineGroup_none.
  - intros only ->. apply combineGroup_one.
  - apply combineGroup_many.
Qed.

(** A group throws as soon as one of its children does. *)
Lemma group_throws_with_child type items item fields operators strict :
  item ∈ items ->
  throws (whereNodeToDrizzleExpr item fields operators strict) ->
  throws (whereNodeToDrizzleExpr (GroupNode type items) fields operators strict).
Proof.
  intros Hin Hitem. rewrite whereNode_group.
  pose proof (mapM_throws_elem
    (fun itemNode => whereNodeToDrizzleExpr itemNode fields operators strict)
    items item Hin Hitem) as H.
  by destruct (mapM _ items).
Qed.

(** ** Conditions *)

Lemma bind_Ok_r {A} (m : Result A) : (m ≫= Ok) = m.
Proof. by destruct m. Qed.

Lemma bind_assoc {A B C} (m : Result A) (f : A -> Result B) (g : B -> Result C) :
  ((m ≫= f) ≫= g) = (m ≫= fun a => f a ≫= g).
Proof. by destruct m. Qed.

Lemma condition_negation g o flag (column : TColumn) operators :
  conditionToDrizzleExpr (mkCondition g o flag) column operators =
  (conditionToDrizzleExpr (mkCondition g o None) column operators
   ≫= negateIf operators flag).
Proof.
  unfold conditionToDrizzleExpr, negateIf. cbn [op not_flag flagSet default].
  by rewrite bind_Ok_r.
Qed.

(** C6: a [$btw] condition on [a, b] compiles to the [and] primitive
    applied to [gte(column, a)] and [lte(column, b)], negated afterwards
    when the condition is negated; and the leaf compiles like the [and]
    group of a [$gte a] leaf and a [$lte b] leaf on the same field. *)
Theorem btw_is_gte_and_lte g flag (a b : Scalar) (column : TColumn) operators :
  conditionToDrizzleExpr (mkCondition g (op_btw a b) None) column operators
    = (lower ← o_gte operators column a;
       upper ← o_lte operators column b;
       o_and operators [lower; upper])
  /\ conditionToDrizzleExpr (mkCondition g (op_btw a b) flag) column operators
    = (lower ← o_gte operators column a;
       upper ← o_lte operators column b;
       conjunction ← o_and operators [lower; upper];
       negateIf operators flag conjunction)
  /\ forall field fields strict g1 g2,
      whereNodeToDrizzleExpr
        (FilterNode field (mkCondition g (op_btw a b) None))
        fields operators strict
      = whereNodeToDrizzleExpr
          (GroupNode and_type
             [FilterNode field (mkCondition g1 (op_gte a) None);
              FilterNode field (mkCondition g2 (op_lte b) None)])
          fields operators strict.
Proof.
  assert (Hbase : forall c : TColumn,
    conditionToDrizzleExpr (mkCondition g (op_btw a b) None) c operators
    = (lower ← o_gte operators c a;
       upper ← o_lte operators c b;
       o_and operators [lower; upper])).
  { intros c. unfold conditionToDrizzleExpr; simpl. by rewrite bind_Ok_r. }
  split; [apply Hbase|split].
  - rewrite condition_negation, Hbase.
    destruct (o_gte operators column a) as [lower|]; [|done].
    rewrite !bind_Ok. by destruct (o_lte operators column b).
  - intros field fields strict g1 g2.
    rewrite whereNode_group, !mapM_cons, mapM_nil, !whereNode_filter.
    unfold getMappedColumn.
    destruct (fields !! field) as [c|]; [|by destruct strict].
    rewrite !bind_Ok, Hbase. unfold conditionToDrizzleExpr; simpl.
    destruct (o_gte operators c a) as [lower|]; [|done].
    destruct (o_lte operators c b) as [upper|]; [|done].
    simpl. by destruct (o_and operators [lower; upper]).
Qed.

(** C7: a [$contains] condition compiled against an operator set without
    [contains] throws the unsupported-operator error; so does a leaf whose
    field is mapped, in both mapping modes, and every tree in which such a
    leaf occurs throws. *)
Theorem contains_without_primitive_throws
    condition (value : list string) operators :
  op condition = op_contains value ->
  o_contains operators = None ->
  (forall column : TColumn,
     conditionToDrizzleExpr condition column operators
       = Throw UnsupportedOperatorError)
  /\ (forall field fields strict,
        is_Some (fields !! field) ->
        whereNodeToDrizzleExpr (FilterNode field condition) fields operators strict
          = Throw UnsupportedOperatorError)
  /\ (forall node field fields strict,
        is_Some (fields !! field) ->
        leafOf field condition node ->
        throws (whereNodeToDrizzleExpr node fields operators strict)).
Proof.
  intros Hop Hnone.
  assert (Hcond : forall column : TColumn,
    conditionToDrizzleExpr condition column operators
      = Throw UnsupportedOperatorError).
  { intros column. unfold conditionToDrizzleExpr. by rewrite Hop, Hnone. }
  assert (Hleaf : forall field fields strict,
    is_Some (fields !! field) ->
    whereNodeToDrizzleExpr (FilterNode field condition) fields operators strict
      = Throw UnsupportedOperatorError).
  { intros field fields strict [c Hc].
    by rewrite whereNode_filter, (getMappedColumn_mapped _ _ _ c Hc),
         bind_Ok, Hcond. }
  split; [exact Hcond|split; [exact Hleaf|]].
  intros node field fields strict Hmapped Hin.
  induction Hin as [|type items item Hitem _ IH].
  - by rewrite Hleaf.
  - by eapply group_throws_with_child.
Qed.

(** C9: [$ilike] calls the pattern-match primitive with the escaped value
    between two percent signs and [$sw] with the escaped value followed by
    one; the escaped value has a backslash before every backslash, percent
    sign and underscore of the value and is otherwise the value, so that
    the text it matches literally is the value itself. *)
Theorem like_patterns_are_escaped
    g flag (value : string) (column : TColumn) operators :
  conditionToDrizzleExpr (mkCondition g (op_ilike value) flag) column operators
    = (o_ilike operators column
         (str percent +:+ escapeLike value +:+ str percent)
       ≫= negateIf operators flag)
  /\ conditionToDrizzleExpr (mkCondition g (op_sw value) flag) column operators
    = (o_ilike operators column (escapeLike value +:+ str percent)
       ≫= negateIf operators flag)
  /\ escapeLike value = escapedSpec value
  /\ likeLiteral (escapeLike value) = Some value.
Proof.
  split; [|split; [|split]].
  - reflexivity.
  - reflexivity.
  - apply escapeLike_escapedSpec.
  - rewrite escapeLike_escapedSpec. apply likeLiteral_escapedSpec.
Qed.

(** ** The select shape *)

Lemma mappedPaths_cons_mapped p (c : TColumn) rest fields :
  fields !! p = Some c ->
  mappedPaths (p :: rest) fields = (p, c) :: mappedPaths rest fields.
Proof. unfold mappedPaths; simpl. by intros ->. Qed.

Lemma mappedPaths_cons_unmapped p rest fields :
  fields !! p = None ->
  mappedPaths (p :: rest) fields = mappedPaths rest fields.
Proof. unfold mappedPaths; simpl. by intros ->. Qed.

Lemma aliasCount_cons selectAlias baseAlias (entry : string * TColumn) l :
  aliasCount selectAlias baseAlias (entry :: l) =
  (if decide (selectAlias entry.1 = baseAlias) then 1 else 0)
  + aliasCount selectAlias baseAlias l.
Proof.
  unfold aliasCount. rewrite filter_cons.
  by destruct (decide (selectAlias entry.1 = baseAlias)).
Qed.

(** Entering the loop one path later, with the counter of its base alias
    raised, names the remaining paths the same way. *)
Lemma aliasedFrom_cons selectAlias usage (entry : string * TColumn) mapped :
  aliasedFrom selectAlias usage (entry :: mapped) =
  (finalAliasOf (selectAlias entry.1) (default 0 (usage !! selectAlias entry.1)),
   entry.2)
  :: aliasedFrom selectAlias
       (<[selectAlias entry.1 := default 0 (usage !! selectAlias entry.1) + 1]> usage)
       mapped.
Proof.
  unfold aliasedFrom. rewrite imap_cons. f_equal.
  - simpl. by rewrite Nat.add_0_r.
  - apply imap_ext; intros i later _; simpl.
    rewrite aliasCount_cons. do 2 f_equal.
    destruct (decide (selectAlias entry.1 = selectAlias later.1)) as [Heq|Hne].
    + rewrite <- Heq, lookup_insert_eq; simpl. lia.
    + rewrite lookup_insert_ne by done. lia.
Qed.

(** When no path makes the resolver throw, the loop performs exactly the
    assignments of [aliasedFrom] on the mapped paths. *)
Lemma selectLoop_returns selectedFields fields strict selectAlias
    (selectShape : gmap string TColumn) usage :
  strict = false \/ Forall (fun p => is_Some (fields !! p)) selectedFields ->
  selectLoop selectedFields fields strict selectAlias selectShape usage =
  Ok (assignAll selectShape
        (aliasedFrom selectAlias usage (mappedPaths selectedFields fields))).
Proof.
  revert selectShape usage.
  induction selectedFields as [|p rest IH]; intros selectShape usage Hok;
    [reflexivity|].
  assert (Hrest : strict = false \/ Forall (fun p => is_Some (fields !! p)) rest).
  { destruct Hok as [?|Hall]; [by left|right]. by inversion Hall. }
  cbn [selectLoop]. destruct (fields !! p) as [c|] eqn:Hp.
  - rewrite (getMappedColumn_mapped _ _ _ c Hp), bind_Ok.
    rewrite (mappedPaths_cons_mapped _ c) by done.
    rewrite aliasedFrom_cons. cbn [fst snd]. by rewrite IH.
  - destruct Hok as [->|Hall].
    + rewrite getMappedColumn_permissive, Hp, bind_Ok.
      rewrite mappedPaths_cons_unmapped by done. by apply IH.
    + inversion Hall as [|? ? [c Hc]]; congruence.
Qed.

(** Under strict mapping the loop throws at the first unmapped path. *)
Lemma selectLoop_throws pre p post fields selectAlias
    (selectShape : gmap string TColumn) usage :
  Forall (fun q => is_Some (fields !! q)) pre ->
  fields !! p = None ->
  selectLoop (pre ++ p :: post) fields true selectAlias selectShape usage
    = Throw (FieldMappingError p).
Proof.
  intros Hpre Hp; revert selectShape usage.
  induction Hpre as [|q pre [c Hq] _ IH]; intros selectShape usage; cbn [app selectLoop].
  - by rewrite getMappedColumn_strict.
  - rewrite (getMappedColumn_mapped _ _ _ c Hq), bind_Ok. apply IH.
Qed.

Lemma lookup_own fields fieldPath :
  inheritedFields fields fieldPath = None ->
  fields !! fieldPath = ownOnly fields !! fieldPath.
Proof.
  intros Hnone. unfold lookup, DrizzleFieldMap_lookup. simpl.
  destruct (ownFields fields !! fieldPath); [reflexivity|exact Hnone].
Qed.

Lemma mappedPaths_own selectedFields fields :
  Forall (fun p => inheritedFields fields p = None) selectedFields ->
  mappedPaths selectedFields fields = mappedPaths selectedFields (ownOnly fields).
Proof.
  unfold mappedPaths. induction 1 as [|p rest Hp _ IH]; [reflexivity|].
  cbn [omap list_omap]. by rewrite IH, (lookup_own _ _ Hp).
Qed.

Lemma Forall_lookup_own (P : option TColumn -> Prop) {A} (path : A -> string)
    fields (l : list A) :
  Forall (fun x => inheritedFields fields (path x) = None) l ->
  Forall (fun x => P (ownOnly fields !! path x)) l ->
  Forall (fun x => P (fields !! path x)) l.
Proof.
  intros Hown Hall. induction Hown as [|x l Hx _ IH]; [constructor|].
  inversion Hall; subst. constructor; [by rewrite (lookup_own _ _ Hx)|auto].
Qed.

Lemma assignProperty_other (selectShape : gmap string TColumn) key c :
  key <> protoKey -> assignProperty selectShape key c = <[key := c]> selectShape.
Proof. intros Hne. unfold assignProperty. by rewrite decide_False. Qed.

Lemma assignProperty_proto (selectShape : gmap string TColumn) c :
  assignProperty selectShape protoKey c = selectShape.
Proof. unfold assignProperty. by rewrite decide_True. Qed.

Lemma assignAll_cons (selectShape : gmap string TColumn) key c writes :
  assignAll selectShape ((key, c) :: writes)
  = assignAll (assignProperty selectShape key c) writes.
Proof. reflexivity. Qed.

Lemma assignAll_snoc (selectShape : gmap string TColumn) writes key c :
  assignAll selectShape (writes ++ [(key, c)])
  = assignProperty (assignAll selectShape writes) key c.
Proof. unfold assignAll. by rewrite foldl_app. Qed.

(** Where no key is [__proto__], the assignments make the object with
    these properties. *)
Lemma assignAll_insertAll (writes : list (string * TColumn)) :
  protoKey ∉ writes.*1 -> assignAll ∅ writes = insertAll writes.
Proof.
  induction writes as [|[key c] writes IH] using rev_ind; [reflexivity|].
  rewrite fmap_app, not_elem_of_app. simpl. intros [Hwrites Hkey].
  apply not_elem_of_cons in Hkey as [Hkey _].
  rewrite assignAll_snoc, assignProperty_other by done.
  unfold insertAll. rewrite foldl_app. simpl. f_equal. by apply IH.
Qed.

(** A list whose elements do not all satisfy a decidable property has a
    first element that does not. *)
Lemma first_failure {A} (P : A -> Prop) `{!forall x, Decision (P x)} (l : list A) :
  Forall P l \/
  exists pre x post, l = pre ++ x :: post /\ Forall P pre /\ ~ P x.
Proof.
  induction l as [|x l IH]; [left; constructor|].
  destruct (decide (P x)) as [Hx|Hx].
  - destruct IH as [Hall|(pre & y & post & -> & Hpre & Hy)].
    + left; by constructor.
    + right. exists (x :: pre), y, post. repeat split; [by constructor|done].
  - right. exists [], x, l. repeat split; [constructor|done].
Qed.

(** Every select shape the build returns, in either mode, is made of the
    assignments the specification describes: the first mapped path of a
    base alias keeps it, the N-th later one is suffixed with [_N]. *)
Lemma select_aliases_by_occurrence selectedFields fields strict selectAlias
    (selectShape : gmap string TColumn) :
  buildSelectShapeInternal selectedFields fields strict selectAlias = Ok selectShape ->
  selectShape = assignAll ∅ (aliasedSpec selectAlias (mappedPaths selectedFields fields)).
Proof.
  unfold buildSelectShapeInternal, aliasedSpec. destruct strict.
  - destruct (first_failure (fun p => is_Some (fields !! p)) selectedFields)
      as [Hall|(pre & p & post & -> & Hpre & Hp)].
    + rewrite selectLoop_returns by auto. by intros [= <-].
    + rewrite selectLoop_throws; [discriminate|done|].
      by apply eq_None_not_Some.
  - rewrite selectLoop_returns by auto. by intros [= <-].
Qed.

Lemma aliasedSpec_first selectAlias (mapped : list (string * TColumn)) i entry :
  mapped !! i = Some entry ->
  aliasCount selectAlias (selectAlias entry.1) (take i mapped) = 0 ->
  aliasedSpec selectAlias mapped !! i = Some (selectAlias entry.1, entry.2).
Proof.
  intros Hi Hcount. unfold aliasedSpec, aliasedFrom.
  rewrite list_lookup_imap, Hi; simpl. by rewrite lookup_empty, Hcount.
Qed.

Lemma aliasedSpec_later selectAlias (mapped : list (string * TColumn)) i entry n :
  mapped !! i = Some entry ->
  aliasCount selectAlias (selectAlias entry.1) (take i mapped) = S n ->
  aliasedSpec selectAlias mapped !! i
    = Some (selectAlias entry.1 +:+ str underscore +:+ pretty (S n), entry.2).
Proof.
  intros Hi Hcount. unfold aliasedSpec, aliasedFrom.
  rewrite list_lookup_imap, Hi; simpl. by rewrite lookup_empty, Hcount.
Qed.

(** ** When the keys of the select shape are distinct *)

Lemma occursIn_app c s1 s2 :
  occursIn c (s1 +:+ s2) = occursIn c s1 || occursIn c s2.
Proof.
  induction s1 as [|x s1 IH]; [reflexivity|].
  simpl. rewrite IH. by destruct (Ascii.eqb x c).
Qed.

Lemma pretty_N_go_no_underscore x s :
  occursIn underscore s = false ->
  occursIn underscore (pretty_N_go x s) = false.
Proof.
  revert s. induction (N.lt_wf_0 x) as [x _ IH]; intros s Hs.
  assert (x = 0 \/ 0 < x)%N as [->|Hpos] by lia.
  - by rewrite pretty_N_go_0.
  - rewrite pretty_N_go_step by done. apply IH; [by apply N.div_lt|].
    simpl. rewrite Hs. unfold pretty_N_char. by repeat case_match.
Qed.

(** The decimal writing of a collision index has no underscore. *)
Lemma pretty_no_underscore (n : nat) : occursIn underscore (pretty n) = false.
Proof.
  unfold pretty, pretty_nat, pretty, pretty_N.
  case_decide; [reflexivity|]. by apply pretty_N_go_no_underscore.
Qed.

Lemma occursIn_suffixed s d :
  occursIn underscore (s +:+ str underscore +:+ d) = true.
Proof.
  rewrite occursIn_app. simpl. apply orb_true_r.
Qed.

(** A suffixed alias is cut at its last underscore in one way only. *)
Lemma suffixed_alias_split s1 s2 d1 d2 :
  occursIn underscore d1 = false -> occursIn underscore d2 = false ->
  s1 +:+ str underscore +:+ d1 = s2 +:+ str underscore +:+ d2 ->
  s1 = s2 /\ d1 = d2.
Proof.
  intros Hd1 Hd2. revert s2. induction s1 as [|a s1 IH]; intros [|b s2] Heq.
  - by inversion Heq.
  - simpl in Heq. injection Heq as _ Hrest.
    change (d1 = s2 +:+ str underscore +:+ d2) in Hrest. subst d1.
    by rewrite occursIn_suffixed in Hd1.
  - simpl in Heq. injection Heq as _ Hrest.
    change (s1 +:+ str underscore +:+ d1 = d2) in Hrest. subst d2.
    by rewrite occursIn_suffixed in Hd2.
  - simpl in Heq. injection Heq as -> Hrest.
    apply IH in Hrest as [-> ->]. done.
Qed.

Lemma append_longer s t : t <> EmptyString -> s <> s +:+ t.
Proof.
  intros Ht. induction s as [|a s IH]; intros Heq.
  - by destruct Ht.
  - simpl in Heq. injection Heq as Heq. by apply IH.
Qed.

Lemma finalAliasOf_inj_index baseAlias k1 k2 :
  finalAliasOf baseAlias k1 = finalAliasOf baseAlias k2 -> k1 = k2.
Proof.
  destruct k1 as [|k1], k2 as [|k2]; simpl; intros Heq; [done| | |].
  - by apply append_longer in Heq.
  - symmetry in Heq. by apply append_longer in Heq.
  - apply suffixed_alias_split in Heq as [_ Heq];
      auto using pretty_no_underscore.
    by apply (inj pretty) in Heq.
Qed.

Lemma finalAliasOf_inj_suffixed b1 b2 k1 k2 :
  finalAliasOf b1 (S k1) = finalAliasOf b2 (S k2) -> b1 = b2.
Proof.
  simpl; intros Heq.
  by apply suffixed_alias_split in Heq as [? _];
    auto using pretty_no_underscore.
Qed.

Lemma aliasCount_take_lt selectAlias (mapped : list (string * TColumn)) i j entry :
  i < j -> mapped !! i = Some entry ->
  aliasCount selectAlias (selectAlias entry.1) (take i mapped)
  < aliasCount selectAlias (selectAlias entry.1) (take j mapped).
Proof.
  revert i j. induction mapped as [|x mapped IH]; intros i j Hlt Hi; [done|].
  destruct j as [|j]; [lia|]. destruct i as [|i].
  - simpl in Hi. injection Hi as ->. cbn [take].
    rewrite aliasCount_cons. rewrite decide_True by done.
    unfold aliasCount at 1; simpl. lia.
  - cbn [take]. rewrite !aliasCount_cons.
    apply Nat.add_lt_mono_l. apply IH; [lia|done].
Qed.

Lemma aliasedSpec_lookup_key selectAlias (mapped : list (string * TColumn)) i key :
  (aliasedSpec selectAlias mapped).*1 !! i = Some key ->
  exists entry,
    mapped !! i = Some entry
    /\ key = finalAliasOf (selectAlias entry.1)
               (aliasCount selectAlias (selectAlias entry.1) (take i mapped)).
Proof.
  unfold aliasedSpec, aliasedFrom.
  rewrite list_lookup_fmap, list_lookup_imap.
  destruct (mapped !! i) as [entry|]; [|done]. simpl.
  rewrite lookup_empty. intros [= <-]. by exists entry.
Qed.

(** The assignments have distinct keys as long as no base alias of a
    mapped path is the suffixed form of the base alias of a mapped path. *)
Lemma select_keys_distinct selectAlias (mapped : list (string * TColumn)) :
  (forall e1 e2 n,
     e1 ∈ mapped -> e2 ∈ mapped ->
     selectAlias e1.1 <> finalAliasOf (selectAlias e2.1) (S n)) ->
  NoDup (aliasedSpec selectAlias mapped).*1.
Proof.
  intros Hclash. apply NoDup_alt. intros i j key Hi Hj.
  apply aliasedSpec_lookup_key in Hi as (ei & Hei & Hki).
  apply aliasedSpec_lookup_key in Hj as (ej & Hej & Hkj).
  assert (Hini : ei ∈ mapped) by (by eapply list_elem_of_lookup_2).
  assert (Hinj : ej ∈ mapped) by (by eapply list_elem_of_lookup_2).
  assert (Hbase : selectAlias ei.1 = selectAlias ej.1).
  { rewrite Hki in Hkj.
    destruct (aliasCount selectAlias (selectAlias ei.1) (take i mapped))
      as [|ki] eqn:Hci,
      (aliasCount selectAlias (selectAlias ej.1) (take j mapped))
      as [|kj] eqn:Hcj.
    - done.
    - by destruct (Hclash ei ej kj).
    - by destruct (Hclash ej ei ki).
    - by apply finalAliasOf_inj_suffixed in Hkj. }
  rewrite Hki, Hbase in Hkj. apply finalAliasOf_inj_index in Hkj.
  destruct (Nat.lt_trichotomy i j) as [Hlt|[Heq|Hgt]]; [|done|].
  - pose proof (aliasCount_take_lt selectAlias mapped i j ei Hlt Hei) as H.
    rewrite Hbase in H. lia.
  - pose proof (aliasCount_take_lt selectAlias mapped j i ej Hgt Hej) as H.
    lia.
Qed.

Lemma pretty_N_go_non_empty x s : s <> EmptyString -> pretty_N_go x s <> EmptyString.
Proof.
  revert s. induction (N.lt_wf_0 x) as [x _ IH]; intros s Hs.
  assert (x = 0 \/ 0 < x)%N as [->|Hpos] by lia.
  - by rewrite pretty_N_go_0.
  - rewrite pretty_N_go_step by done. apply IH; [by apply N.div_lt|done].
Qed.

Lemma pretty_non_empty (n : nat) : pretty n <> EmptyString.
Proof.
  unfold pretty, pretty_nat, pretty, pretty_N. case_decide; [done|].
  assert (0 < N.of_nat n)%N as Hpos by lia.
  rewrite pretty_N_go_step by done. by apply pretty_N_go_non_empty.
Qed.

(** A suffixed alias is never [__proto__]. *)
Lemma finalAliasOf_suffixed_not_proto baseAlias n :
  finalAliasOf baseAlias (S n) <> protoKey.
Proof.
  cbn [finalAliasOf]. intros Heq.
  change protoKey with ("__proto_" +:+ str underscore +:+ "") in Heq.
  apply suffixed_alias_split in Heq as [_ Heq];
    [|apply pretty_no_underscore|reflexivity].
  by apply pretty_non_empty in Heq.
Qed.

Lemma finalAliasOf_not_proto baseAlias index :
  baseAlias <> protoKey -> finalAliasOf baseAlias index <> protoKey.
Proof.
  destruct index; [done|]. intros _. apply finalAliasOf_suffixed_not_proto.
Qed.

Lemma mappedPaths_path selectedFields fields (entry : string * TColumn) :
  entry ∈ mappedPaths selectedFields fields -> entry.1 ∈ selectedFields.
Proof.
  unfold mappedPaths. rewrite list_elem_of_omap. intros (p & Hp & Hentry).
  destruct (fields !! p); [|discriminate]. by injection Hentry as <-.
Qed.

Lemma aliasedFrom_no_proto selectAlias usage (mapped : list (string * TColumn)) :
  Forall (fun entry => selectAlias entry.1 <> protoKey) mapped ->
  protoKey ∉ (aliasedFrom selectAlias usage mapped).*1.
Proof.
  intros Hall Hin. apply list_elem_of_fmap in Hin as ([key c] & Hkey & Hin).
  simpl in Hkey. unfold aliasedFrom in Hin.
  apply list_elem_of_lookup_1 in Hin as [i Hi].
  rewrite list_lookup_imap in Hi.
  destruct (mapped !! i) as [entry|] eqn:Hentry; [|discriminate].
  simpl in Hi. injection Hi as Hfinal _.
  rewrite Forall_forall in Hall.
  apply (finalAliasOf_not_proto (selectAlias entry.1)
           (default 0 (usage !! selectAlias entry.1)
            + aliasCount selectAlias (selectAlias entry.1) (take i mapped))).
  - apply Hall. by eapply list_elem_of_lookup_2.
  - congruence.
Qed.

(** C1 (as amended): for a select list none of whose paths is a name the
    mapping inherits or gets the alias [__proto__], the select build under
    permissive mapping never fails and returns the object whose properties
    are those of the paths that are own keys of the mapping, skipping the
    others; under strict mapping it does the same when every path is an own
    key and otherwise fails with the field-mapping error of the first path
    that is not. *)
Theorem select_shape_mapping_policy selectedFields fields selectAlias :
  Forall (fun p => inheritedFields fields p = None) selectedFields ->
  Forall (fun p => selectAlias p <> protoKey) selectedFields ->
  buildSelectShapeInternal selectedFields fields false selectAlias
    = Ok (insertAll
            (aliasedSpec selectAlias
               (mappedPaths selectedFields (ownOnly fields))))
  /\ (Forall (fun p => is_Some (ownOnly fields !! p)) selectedFields ->
      buildSelectShapeInternal selectedFields fields true selectAlias
        = buildSelectShapeInternal selectedFields fields false selectAlias)
  /\ (forall pre p post,
        selectedFields = pre ++ p :: post ->
        Forall (fun q => is_Some (ownOnly fields !! q)) pre ->
        ownOnly fields !! p = None ->
        buildSelectShapeInternal selectedFields fields true selectAlias
          = Throw (FieldMappingError p)).
Proof.
  intros Hown Halias.
  unfold buildSelectShapeInternal, aliasedSpec. split; [|split].
  - rewrite selectLoop_returns by (by left).
    rewrite <- (mappedPaths_own _ _ Hown). f_equal.
    apply assignAll_insertAll, aliasedFrom_no_proto.
    apply Forall_forall. intros entry Hentry.
    eapply Forall_forall in Halias; [exact Halias|].
    by apply (mappedPaths_path _ fields).
  - intros Hall. rewrite !selectLoop_returns; auto.
    right. by apply (Forall_lookup_own is_Some id).
  - intros pre p post -> Hpre Hp.
    apply Forall_app in Hown as [Hown_pre Hown_p].
    apply Forall_cons in Hown_p as [Hown_p _].
    apply selectLoop_throws.
    + by apply (Forall_lookup_own is_Some id).
    + by rewrite (lookup_own _ _ Hown_p).
Qed.

Lemma assignAll_size (selectShape : gmap string TColumn) writes :
  NoDup writes.*1 ->
  protoKey ∉ writes.*1 ->
  (forall key, key ∈ writes.*1 -> selectShape !! key = None) ->
  size (assignAll selectShape writes) = size selectShape + length writes.
Proof.
  revert selectShape.
  induction writes as [|[key c] writes IH];
    intros selectShape Hnodup Hproto Hfresh.
  - simpl. lia.
  - rewrite fmap_cons in Hnodup, Hproto, Hfresh. simpl in Hnodup, Hproto, Hfresh.
    apply NoDup_cons in Hnodup as [Hkey Hnodup].
    apply not_elem_of_cons in Hproto as [Hne Hproto].
    rewrite assignAll_cons, assignProperty_other by done.
    rewrite IH; [|done..|].
    + rewrite map_size_insert_None; [simpl; lia|].
      apply Hfresh, list_elem_of_here.
    + intros key' Hin. rewrite lookup_insert_ne.
      * apply Hfresh. by apply list_elem_of_further.
      * intros <-. done.
Qed.

(** X3: as long as no base alias of a mapped path is the suffixed form of
    the base alias of a mapped path, and none is [__proto__], the select
    shape has one entry for each path that has a value in the mapping: no
    assignment overwrites another. *)
Lemma select_shape_complete selectedFields fields strict selectAlias
    (selectShape : gmap string TColumn) :
  (forall e1 e2 n,
     e1 ∈ mappedPaths selectedFields fields ->
     e2 ∈ mappedPaths selectedFields fields ->
     selectAlias e1.1 <> finalAliasOf (selectAlias e2.1) (S n)) ->
  (forall e, e ∈ mappedPaths selectedFields fields ->
             selectAlias e.1 <> protoKey) ->
  buildSelectShapeInternal selectedFields fields strict selectAlias
    = Ok selectShape ->
  size selectShape = length (mappedPaths selectedFields fields).
Proof.
  intros Hclash Hproto Hbuild.
  apply select_aliases_by_occurrence in Hbuild as ->.
  rewrite assignAll_size.
  - rewrite map_size_empty. unfold aliasedSpec, aliasedFrom.
    by rewrite length_imap.
  - by apply select_keys_distinct.
  - intros Hin. apply list_elem_of_lookup_1 in Hin as [i Hi].
    apply aliasedSpec_lookup_key in Hi as (entry & Hentry & Hkey).
    symmetry in Hkey. revert Hkey. apply finalAliasOf_not_proto.
    apply Hproto. by eapply list_elem_of_lookup_2.
  - intros key _. apply lookup_empty.
Qed.

(** ** Ordering *)

Lemma presentOnes_fmap {A B} (f : A -> option B) (l : list A) :
  presentOnes (f <$> l) = omap f l.
Proof.
  unfold presentOnes. induction l as [|x l IH]; [reflexivity|].
  rewrite fmap_cons. cbn [omap list_omap]. rewrite IH.
  by destruct (f x).
Qed.

Lemma mapM_pure {A B} (f : A -> Result B) (g : A -> B) (l : list A) :
  (forall x, f x = Ok (g x)) -> mapM f l = Ok (g <$> l).
Proof.
  intros Hf. apply mapM_Ok. induction l; constructor; auto.
Qed.

Lemma sortItemToOrderExpr_permissive fields operators sortItem :
  sortItemToOrderExpr fields operators false sortItem =
  match fields !! property sortItem with
  | Some c => Some <$> directionToOrderExpr (direction sortItem) c operators
  | None => Ok None
  end.
Proof.
  unfold sortItemToOrderExpr. by rewrite getMappedColumn_permissive, bind_Ok.
Qed.

Lemma sortItemToOrderExpr_mapped fields operators strict sortItem :
  is_Some (fields !! property sortItem) ->
  sortItemToOrderExpr fields operators strict sortItem =
  sortItemToOrderExpr fields operators false sortItem.
Proof.
  intros [c Hc]. unfold sortItemToOrderExpr.
  by rewrite !(getMappedColumn_mapped _ _ _ c Hc).
Qed.

Lemma sortItemToOrderExpr_strict fields operators sortItem :
  fields !! property sortItem = None ->
  sortItemToOrderExpr fields operators true sortItem =
  Throw (FieldMappingError (property sortItem)).
Proof.
  intros Hnone. unfold sortItemToOrderExpr.
  by rewrite getMappedColumn_strict.
Qed.

Lemma mapM_ext_Forall {A B} (f g : A -> Result B) (l : list A) :
  Forall (fun x => f x = g x) l -> mapM f l = mapM g l.
Proof.
  induction 1 as [|x l Hx _ IH]; [reflexivity|].
  by rewrite !mapM_cons, Hx, IH.
Qed.

(** A mapped sort entry compiles when the builders of the two directions
    return. *)
Lemma sortItemToOrderExpr_returns fields operators strict sortItem :
  (forall c, returns (o_asc operators c)) ->
  (forall c, returns (o_desc operators c)) ->
  is_Some (fields !! property sortItem) ->
  returns (sortItemToOrderExpr fields operators strict sortItem).
Proof.
  intros Hasc Hdesc [c Hc]. unfold sortItemToOrderExpr.
  rewrite (getMappedColumn_mapped _ _ _ c Hc), bind_Ok.
  destruct (direction sortItem); cbn [directionToOrderExpr].
  - specialize (Hasc c). by destruct (o_asc operators c).
  - specialize (Hdesc c). by destruct (o_desc operators c).
Qed.

Lemma sortItemToOrderExpr_Ok_inv fields operators strict path direction result :
  sortItemToOrderExpr fields operators strict (mkSortItem path direction)
    = Ok result ->
  (fields !! path = None /\ result = None)
  \/ (exists c expression,
        fields !! path = Some c /\ result = Some expression
        /\ match direction with
           | ASC => o_asc operators c
           | DESC => o_desc operators c
           end = Ok expression).
Proof.
  unfold sortItemToOrderExpr, getMappedColumn. simpl.
  destruct (fields !! path) as [c|].
  - rewrite bind_Ok. intros Hresult.
    apply fmap_Ok_inv in Hresult as (expression & Hbuilt & ->).
    right. exists c, expression. by destruct direction.
  - destruct strict; [discriminate|]. rewrite bind_Ok. intros [= <-]. by left.
Qed.

(** The sort list a call compiles, in either mode, gives the order
    expressions it stands for. *)
Lemma mapM_sortItems_ordered fields operators strict sortItems mapped :
  mapM (sortItemToOrderExpr fields operators strict) sortItems = Ok mapped ->
  orderedAs fields operators sortItems (presentOnes mapped).
Proof.
  revert mapped. induction sortItems as [|[path direction] rest IH]; intros mapped.
  - rewrite mapM_nil. intros [= <-]. constructor.
  - rewrite mapM_cons.
    destruct (sortItemToOrderExpr fields operators strict
                (mkSortItem path direction)) as [result|] eqn:Hitem;
      [|discriminate].
    rewrite bind_Ok.
    destruct (mapM (sortItemToOrderExpr fields operators strict) rest)
      as [k|]; [|discriminate].
    rewrite bind_Ok. intros [= <-]. specialize (IH k eq_refl).
    apply sortItemToOrderExpr_Ok_inv in Hitem
      as [[Hpath ->]|(c & expression & Hpath & -> & Hbuilt)].
    + by apply orderedAs_unmapped.
    + destruct direction.
      * by eapply orderedAs_asc.
      * by eapply orderedAs_desc.
Qed.

(** No sort list stands for two lists of order expressions. *)
Lemma orderedAs_functional fields operators sortItems expressions1 expressions2 :
  orderedAs fields operators sortItems expressions1 ->
  orderedAs fields operators sortItems expressions2 ->
  expressions1 = expressions2.
Proof.
  intros H1. revert expressions2.
  induction H1 as [|path direction rest expressions Hpath _ IH
                   |path c expression rest expressions Hpath Hasc _ IH
                   |path c expression rest expressions Hpath Hdesc _ IH];
    intros expressions2 H2; inversion H2; subst; try congruence; auto.
  - f_equal; [congruence|auto].
  - f_equal; [congruence|auto].
Qed.

Lemma orderByOf_ordered sortItems fields operators strict orderBy :
  orderByOf (Some sortItems) fields operators strict = Ok orderBy ->
  exists expressions,
    orderBy = Some expressions /\ orderedAs fields operators sortItems expressions.
Proof.
  unfold orderByOf.
  destruct (mapM _ sortItems) as [mapped|] eqn:Hmapped; [|discriminate].
  rewrite bind_Ok. intros [= <-]. eexists; split; [reflexivity|].
  by eapply mapM_sortItems_ordered.
Qed.

(** Under permissive mapping the sort list compiles as soon as the builders
    of the two directions return. *)
Lemma orderByOf_permissive sortItems fields operators :
  (forall c, returns (o_asc operators c)) ->
  (forall c, returns (o_desc operators c)) ->
  exists expressions,
    orderByOf (Some sortItems) fields operators false = Ok (Some expressions)
    /\ orderedAs fields operators sortItems expressions.
Proof.
  intros Hasc Hdesc.
  assert (returns (mapM (sortItemToOrderExpr fields operators false) sortItems))
    as Hreturns.
  { apply mapM_returns, Forall_forall. intros sortItem _.
    destruct (fields !! property sortItem) as [c|] eqn:Hc.
    - by apply sortItemToOrderExpr_returns.
    - by rewrite sortItemToOrderExpr_permissive, Hc. }
  apply returns_Ok in Hreturns as [mapped Hmapped].
  exists (presentOnes mapped). split.
  - unfold orderByOf. by rewrite Hmapped.
  - by eapply mapM_sortItems_ordered.
Qed.

Lemma orderByOf_mapped sortItems fields operators :
  Forall (fun sortItem => is_Some (fields !! property sortItem)) sortItems ->
  orderByOf (Some sortItems) fields operators true
    = orderByOf (Some sortItems) fields operators false.
Proof.
  intros Hall. unfold orderByOf. erewrite mapM_ext_Forall; [reflexivity|].
  eapply Forall_impl; [exact Hall|].
  intros sortItem Hmapped. by apply sortItemToOrderExpr_mapped.
Qed.

Lemma orderByOf_strict_throws pre sortItem post fields operators :
  (forall c, returns (o_asc operators c)) ->
  (forall c, returns (o_desc operators c)) ->
  Forall (fun earlier => is_Some (fields !! property earlier)) pre ->
  fields !! property sortItem = None ->
  orderByOf (Some (pre ++ sortItem :: post)) fields operators true
    = Throw (FieldMappingError (property sortItem)).
Proof.
  intros Hasc Hdesc Hpre Hnone. unfold orderByOf.
  erewrite mapM_Throw; [reflexivity| |by apply sortItemToOrderExpr_strict].
  eapply Forall_impl; [exact Hpre|].
  intros earlier Hmapped. by apply sortItemToOrderExpr_returns.
Qed.

Lemma orderedAs_own fields operators sortItems expressions :
  Forall (fun sortItem => inheritedFields fields (property sortItem) = None)
    sortItems ->
  orderedAs fields operators sortItems expressions ->
  orderedAs (ownOnly fields) operators sortItems expressions.
Proof.
  intros Hown Hordered.
  induction Hordered as [|path direction rest expressions Hpath _ IH
                         |path c expression rest expressions Hpath Hasc _ IH
                         |path c expression rest expressions Hpath Hdesc _ IH];
    [constructor|..]; apply Forall_cons in Hown as [Hhere Hown];
    simpl in Hhere; rewrite (lookup_own _ _ Hhere) in Hpath.
  - apply orderedAs_unmapped; auto.
  - eapply orderedAs_asc; eauto.
  - eapply orderedAs_desc; eauto.
Qed.

(** C2 (as amended): for a sort list none of whose keys is a name the
    mapping inherits, and an operator set whose [asc] and [desc] return:
    under permissive mapping the sort list compiles without failure to
    the order expressions of the entries whose key is an own key of the
    mapping, in request order and each by the builder of its direction;
    under strict mapping it does the same when every key is an own key and
    otherwise fails with the field-mapping error of the first key that is
    not. *)
Theorem order_by_mapping_policy (sortItems : list SortItem) fields operators :
  Forall (fun sortItem => inheritedFields fields (property sortItem) = None)
    sortItems ->
  (forall c, returns (o_asc operators c)) ->
  (forall c, returns (o_desc operators c)) ->
  (exists expressions,
     orderByOf (Some sortItems) fields operators false = Ok (Some expressions)
     /\ orderedAs (ownOnly fields) operators sortItems expressions)
  /\ (Forall (fun sortItem => is_Some (ownOnly fields !! property sortItem))
        sortItems ->
      orderByOf (Some sortItems) fields operators true
        = orderByOf (Some sortItems) fields operators false)
  /\ (forall pre sortItem post,
        sortItems = pre ++ sortItem :: post ->
        Forall (fun earlier => is_Some (ownOnly fields !! property earlier)) pre ->
        ownOnly fields !! property sortItem = None ->
        orderByOf (Some sortItems) fields operators true
          = Throw (FieldMappingError (property sortItem))).
Proof.
  intros Hown Hasc Hdesc. split; [|split].
  - destruct (orderByOf_permissive sortItems fields operators Hasc Hdesc)
      as (expressions & Hresult & Hordered).
    exists expressions. split; [done|]. by apply orderedAs_own.
  - intros Hall. apply orderByOf_mapped.
    by apply (Forall_lookup_own is_Some property).
  - intros pre sortItem post -> Hpre Hnone.
    apply Forall_app in Hown as [Hown_pre Hown_here].
    apply Forall_cons in Hown_here as [Hown_here _].
    apply orderByOf_strict_throws; [done..| |].
    + by apply (Forall_lookup_own is_Some property).
    + by rewrite (lookup_own _ _ Hown_here).
Qed.

(** ** The clause bundle *)

(** Arithmetic on integers of magnitude up to [2^53] is exact. *)
Lemma roundDouble_exact (n : Z) :
  (Z.abs n <= 2 ^ 53)%Z -> roundDouble n = Finite n.
Proof.
  intros Hn. unfold roundDouble.
  by destruct (Z.leb_spec (Z.abs n) (2 ^ 53)); [|lia].
Qed.

Lemma offsetOf_limit_offset (pagination : Pagination Scalar) (p l : Z) :
  type pagination = LIMIT_OFFSET ->
  page pagination = Some (Finite p) -> limit pagination = Some (Finite l) ->
  (p <= 2 ^ 53)%Z ->
  (Z.abs ((Z.max p 1 - 1) * l) <= 2 ^ 53)%Z ->
  offsetOf pagination = Some (Finite ((Z.max p 1 - 1) * l)).
Proof.
  unfold offsetOf; intros -> -> -> Hp Hproduct. f_equal.
  assert (jsSub (if jsPositive (Finite p) then Finite p else Finite 1) (Finite 1)
          = Finite (Z.max p 1 - 1)) as ->.
  { cbn [jsPositive]. destruct (Z.ltb_spec 0 p); cbn [jsSub].
    - rewrite roundDouble_exact by lia. f_equal. lia.
    - rewrite roundDouble_exact by (simpl; lia). f_equal. lia. }
  cbn [jsMul]. by rewrite roundDouble_exact.
Qed.

Lemma offsetOf_other_type (pagination : Pagination Scalar) :
  type pagination <> LIMIT_OFFSET -> offsetOf pagination = None.
Proof. unfold offsetOf. by destruct (type pagination). Qed.

Lemma offsetOf_no_limit (pagination : Pagination Scalar) :
  limit pagination = None -> offsetOf pagination = None.
Proof.
  unfold offsetOf; intros ->.
  by destruct (type pagination), (page pagination).
Qed.

Lemma offsetOf_no_page (pagination : Pagination Scalar) :
  page pagination = None -> offsetOf pagination = None.
Proof. unfold offsetOf; intros ->. by destruct (type pagination). Qed.

(** The bundle of a call that returns carries the request's limit and the
    offset of lines 383-391. *)
Lemma clauses_limit_offset (pagination : Pagination Scalar)
    (config : BuildDrizzleClausesConfig Scalar TColumn TWhereExpr TOrderByExpr)
    clauses :
  buildDrizzleClausesFromPagination pagination config = Ok clauses ->
  c_limit clauses = limit pagination /\ c_offset clauses = offsetOf pagination.
Proof.
  unfold buildDrizzleClausesFromPagination.
  destruct (buildSelectShapeInternal _ _ _ _); [|discriminate].
  rewrite bind_Ok.
  destruct (match filters pagination with Some _ => _ | None => _ end);
    [|discriminate].
  rewrite bind_Ok. destruct (orderByOf _ _ _ _); [|discriminate].
  rewrite bind_Ok. by intros [= <-].
Qed.

(** A request without select list, filters and sort keys always gets its
    bundle: an empty select shape, no predicate, no ordering. *)
Lemma clauses_of_plain_request (pagination : Pagination Scalar)
    (config : BuildDrizzleClausesConfig Scalar TColumn TWhereExpr TOrderByExpr) :
  select pagination = None -> filters pagination = None ->
  sortBy pagination = None ->
  buildDrizzleClausesFromPagination pagination config =
  Ok {| c_select := ∅; c_where := None; c_orderBy := None;
        c_limit := limit pagination; c_offset := offsetOf pagination |}.
Proof.
  unfold buildDrizzleClausesFromPagination. by intros -> -> ->.
Qed.

(** C4 (as amended): in the bundle of a request of type [LIMIT_OFFSET]
    whose page and limit are integers, the page at most [2^53] and
    [(max(page, 1) - 1) * limit] of magnitude at most [2^53], the offset is
    [(max(page, 1) - 1) * limit], hence 0 for every page up to 1; when the
    limit is absent, so is the offset. *)
Theorem offset_of_limit_offset_request (pagination : Pagination Scalar)
    (config : BuildDrizzleClausesConfig Scalar TColumn TWhereExpr TOrderByExpr)
    clauses :
  buildDrizzleClausesFromPagination pagination config = Ok clauses ->
  (forall p l : Z,
     type pagination = LIMIT_OFFSET ->
     page pagination = Some (Finite p) -> limit pagination = Some (Finite l) ->
     (p <= 2 ^ 53)%Z ->
     (Z.abs ((Z.max p 1 - 1) * l) <= 2 ^ 53)%Z ->
     c_offset clauses = Some (Finite ((Z.max p 1 - 1) * l))
     /\ ((p <= 1)%Z -> c_offset clauses = Some (Finite 0)))
  /\ (limit pagination = None -> c_offset clauses = None).
Proof.
  intros Hbuild. apply clauses_limit_offset in Hbuild as [_ ->].
  split.
  - intros p l Htype Hpage Hlimit Hp Hproduct.
    rewrite (offsetOf_limit_offset _ p l) by done. split; [done|].
    intros Hle. do 2 f_equal. replace (Z.max p 1) with 1%Z by lia. lia.
  - apply offsetOf_no_limit.
Qed.

(** C10: in the bundle of a call that returns, the limit is the request's
    and an offset is present only for a request of type [LIMIT_OFFSET]:
    for any other type it is absent, whatever page and limit are. *)
Theorem offset_only_for_limit_offset (pagination : Pagination Scalar)
    (config : BuildDrizzleClausesConfig Scalar TColumn TWhereExpr TOrderByExpr)
    clauses :
  buildDrizzleClausesFromPagination pagination config = Ok clauses ->
  (is_Some (c_offset clauses) -> type pagination = LIMIT_OFFSET)
  /\ (type pagination <> LIMIT_OFFSET ->
      c_offset clauses = None /\ c_limit clauses = limit pagination)
  /\ c_limit clauses = limit pagination.
Proof.
  intros Hbuild. apply clauses_limit_offset in Hbuild as [-> ->].
  split; [|split; [|done]].
  - intros [o Ho]. destruct (type pagination) eqn:Htype; [done|].
    rewrite offsetOf_other_type in Ho; [discriminate|]. by rewrite Htype.
  - intros Htype. by rewrite offsetOf_other_type.
Qed.

(** ** When the call returns *)

Lemma WhereNode_nested_ind (P : WhereNode Scalar -> Prop) :
  (forall field condition, P (FilterNode field condition)) ->
  (forall type items, Forall P items -> P (GroupNode type items)) ->
  forall node, P node.
Proof.
  intros Hleaf Hgroup. fix IH 1. intros [field condition|type items].
  - apply Hleaf.
  - apply Hgroup. induction items as [|item items IHitems]; constructor.
    + apply IH.
    + exact IHitems.
Qed.

Lemma returns_not_throws {A} (m : Result A) : returns m -> throws m -> False.
Proof. by destruct m. Qed.

Lemma negateIf_returns operators flag (expression : TWhereExpr) :
  (forall e, returns (o_not operators e)) ->
  returns (negateIf operators flag expression).
Proof.
  intros Hnot. unfold negateIf. destruct (flagSet flag); [apply Hnot|exact I].
Qed.

Lemma bind_returns {A B} (m : Result A) (f : A -> Result B) :
  returns m -> (forall a, returns (f a)) -> returns (m ≫= f).
Proof. destruct m as [a|]; [|done]. intros _ Hf. apply Hf. Qed.

(** A condition compiles once the primitives that never refuse return and,
    for a [$contains], the operator set has [contains] and it returns on
    the values asked for. *)
Lemma conditionToDrizzleExpr_returns condition (column : TColumn) operators :
  primitivesReturn operators ->
  (forall values,
     op condition = op_contains values ->
     exists contains,
       o_contains operators = Some contains
       /\ returns (contains column values)) ->
  returns (conditionToDrizzleExpr condition column operators).
Proof.
  intros (Heq & Hnull & Hin & Hgt & Hgte & Hlt & Hlte & Hilike & Hnot & _ & _
          & Hcombine) Hcontains.
  unfold conditionToDrizzleExpr.
  apply bind_returns;
    [|intros e; destruct (flagSet (not_flag condition)); [apply Hnot|exact I]].
  destruct (op condition) as [| | |values| | | | | | |] eqn:Hop; auto.
  - destruct (Hcontains values eq_refl) as (contains & -> & Hreturns).
    exact Hreturns.
  - apply bind_returns; [apply Hgte|]. intros lower.
    apply bind_returns; [apply Hlte|]. intros upper.
    by apply (Hcombine [lower; upper]).
Qed.

(** A condition fails on a [$contains] only: for want of the primitive, or
    with what the primitive throws. *)
Lemma conditionToDrizzleExpr_Throw_inv condition (column : TColumn) operators e :
  primitivesReturn operators ->
  conditionToDrizzleExpr condition column operators = Throw e ->
  exists values,
    op condition = op_contains values
    /\ ((o_contains operators = None /\ e = UnsupportedOperatorError)
        \/ exists contains,
             o_contains operators = Some contains
             /\ contains column values = Throw e).
Proof.
  intros Hprimitives Hthrow.
  destruct (op condition) as [| | |values| | | | | | |] eqn:Hop;
    try (exfalso;
         apply (returns_not_throws
                  (conditionToDrizzleExpr condition column operators));
         [apply conditionToDrizzleExpr_returns; [done|];
          intros values Hvalues; congruence
         |by rewrite Hthrow]).
  exists values. split; [done|].
  unfold conditionToDrizzleExpr in Hthrow. rewrite Hop in Hthrow.
  destruct (o_contains operators) as [contains|].
  - right. exists contains. split; [done|].
    destruct (contains column values) as [expression|e'];
      [|by injection Hthrow as ->].
    rewrite bind_Ok in Hthrow. exfalso.
    apply (returns_not_throws
             (negateIf operators (not_flag condition) expression)).
    + apply negateIf_returns, Hprimitives.
    + unfold negateIf. by rewrite Hthrow.
  - left. by injection Hthrow as <-.
Qed.

Lemma combineGroup_returns type operators (es : list TWhereExpr) :
  combinesNonEmpty operators -> returns (combineGroup type operators es).
Proof.
  intros Hcombine. destruct es as [|e1 [|e2 es]]; [exact I|exact I|].
  destruct (Hcombine (e1 :: e2 :: es)) as [Hand Hor]; [done|].
  apply returns_Ok in Hand as [a Ha]. apply returns_Ok in Hor as [o Ho].
  destruct type; simpl; by rewrite ?Ha, ?Ho.
Qed.

Lemma primitivesReturn_combines (operators : Operators) :
  primitivesReturn operators -> combinesNonEmpty operators.
Proof. intros H. apply H. Qed.




(** ** More on [mapM] *)

Lemma presentOnes_app {A} (l1 l2 : list (option A)) :
  presentOnes (l1 ++ l2) = presentOnes l1 ++ presentOnes l2.
Proof. unfold presentOnes. apply omap_app. Qed.

Lemma presentOnes_nil_iff {A} (l : list (option A)) :
  presentOnes l = [] <-> Forall (fun r => r = None) l.
Proof.
  unfold presentOnes. induction l as [|[a|] l IH]; simpl.
  - split; [constructor|done].
  - split; [done|]. intros H; inversion H; discriminate.
  - rewrite IH. split; [by constructor|]. by intros H; inversion H.
Qed.

(** ** Which trees give a predicate *)

Lemma combineGroup_present type operators (es : list TWhereExpr) r :
  combineGroup type operators es = Ok r -> (is_Some r <-> es <> []).
Proof.
  destruct es as [|e1 [|e2 es]]; simpl.
  - intros [= <-]. split; [by intros [? ?]|done].
  - intros [= <-]. split; [done|by eexists].
  - intros H. assert (is_Some r); [|by split].
    destruct type; apply fmap_Ok_inv in H as (e & _ & ->); by eexists.
Qed.

(** X1: the predicate of a tree whose compilation returns is present
    exactly when the lookup [fields[field]] gives a value, own or
    inherited, for the field of some leaf of the tree; a tree with no such
    leaf, an empty group for one, gives no predicate at all. *)
Theorem where_present_iff_mapped_leaf node fields operators strict r :
  whereNodeToDrizzleExpr node fields operators strict = Ok r ->
  (is_Some r <->
   exists field condition,
     leafOf field condition node /\ is_Some (fields !! field)).
Proof.
  revert r.
  induction node as [field condition|type items IH] using WhereNode_nested_ind;
    intros r.
  - rewrite whereNode_filter. unfold getMappedColumn.
    destruct (fields !! field) as [c|] eqn:Hc.
    + rewrite bind_Ok. intros H. apply fmap_Ok_inv in H as (e & _ & ->).
      split; [|by eexists]. intros _. exists field, condition.
      split; [constructor|by rewrite Hc].
    + destruct strict; [discriminate|]. rewrite bind_Ok. intros [= <-].
      split; [by intros [? ?]|].
      intros (f & c & Hleaf & Hmapped). inversion Hleaf; subst.
      rewrite Hc in Hmapped. by destruct Hmapped.
  - rewrite whereNode_group.
    destruct (mapM _ items) as [compiled|e] eqn:Hmap; [|discriminate].
    rewrite bind_Ok. intros Hcombine.
    rewrite (combineGroup_present _ _ _ _ Hcombine). apply mapM_Ok in Hmap.
    clear Hcombine. split.
    + intros Hne.
      assert (Hsome : exists item result,
                item ∈ items /\ is_Some result
                /\ whereNodeToDrizzleExpr item fields operators strict = Ok result).
      { clear IH. induction Hmap as [|item result items compiled Hitem _ IHmap].
        - done.
        - destruct result as [e|].
          + exists item, (Some e). repeat split; [apply list_elem_of_here|by eexists|done].
          + destruct IHmap as (item' & result' & Hin & Hres & Hc); [done|].
            exists item', result'. repeat split; [by apply list_elem_of_further|done..]. }
      destruct Hsome as (item & result & Hin & Hres & Hitem).
      rewrite Forall_forall in IH.
      apply (IH item Hin result Hitem) in Hres as (f & c & Hleaf & Hmapped).
      exists f, c. split; [by eapply leafOf_item|done].
    + intros (f & c & Hleaf & Hmapped). inversion Hleaf as [|? ? item Hin Hitem]; subst.
      rewrite Forall_forall in IH.
      apply list_elem_of_lookup_1 in Hin as [i Hi].
      destruct (Forall2_lookup_l _ _ _ _ _ Hmap Hi) as (result & Hri & Hres).
      assert (Hsome : is_Some result).
      { apply (IH item (list_elem_of_lookup_2 _ _ _ Hi) result Hres).
        by exists f, c. }
      intros Hnil. apply presentOnes_nil_iff in Hnil.
      rewrite Forall_forall in Hnil.
      rewrite (Hnil result (list_elem_of_lookup_2 _ _ _ Hri)) in Hsome.
      by destruct Hsome.
Qed.

(** X2: under strict mapping a compilation that returns has pruned
    nothing: for the field of every leaf of the tree the lookup
    [fields[field]] gives a value, own or inherited. *)
Theorem strict_where_returns_all_mapped node fields operators r field condition :
  whereNodeToDrizzleExpr node fields operators true = Ok r ->
  leafOf field condition node ->
  is_Some (fields !! field).
Proof.
  intros Hreturns Hleaf. revert r Hreturns.
  induction Hleaf as [|type items item Hin _ IH]; intros r.
  - rewrite whereNode_filter. unfold getMappedColumn.
    destruct (fields !! field); [by eexists|discriminate].
  - rewrite whereNode_group.
    destruct (mapM _ items) as [compiled|e] eqn:Hmap; [|discriminate].
    intros _. apply mapM_Ok in Hmap.
    apply list_elem_of_lookup_1 in Hin as [i Hi].
    destruct (Forall2_lookup_l _ _ _ _ _ Hmap Hi) as (result & _ & Hres).
    by eapply IH.
Qed.

(** When every leaf of a tree has a mapped field, strict and permissive
    compilation give the same outcome, errors included. *)
Lemma where_mode_irrelevant_when_mapped node fields operators :
  (forall field condition,
     leafOf field condition node -> is_Some (fields !! field)) ->
  whereNodeToDrizzleExpr node fields operators true
  = whereNodeToDrizzleExpr node fields operators false.
Proof.
  induction node as [field condition|type items IH] using WhereNode_nested_ind;
    intros Hmapped.
  - destruct (Hmapped field condition (leafOf_here _ _)) as [c Hc].
    by rewrite !whereNode_filter, !(getMappedColumn_mapped _ _ _ c Hc).
  - rewrite !whereNode_group. erewrite mapM_ext_Forall; [reflexivity|].
    rewrite Forall_forall in IH. apply Forall_forall. intros item Hin.
    apply IH; [done|]. intros f c Hleaf. apply (Hmapped f c).
    by eapply leafOf_item.
Qed.

(** X4: a group does not change when a child that compiles to absent is
    taken out of it, and a group of one child compiles as that child,
    whatever the group's type. *)
Theorem pruned_child_is_neutral type before node after fields operators strict :
  whereNodeToDrizzleExpr node fields operators strict = Ok None ->
  whereNodeToDrizzleExpr (GroupNode type (before ++ node :: after))
    fields operators strict
  = whereNodeToDrizzleExpr (GroupNode type (before ++ after))
      fields operators strict
  /\ forall only,
      whereNodeToDrizzleExpr (GroupNode type [only]) fields operators strict
      = whereNodeToDrizzleExpr only fields operators strict.
Proof.
  intros Hnone. split.
  - rewrite !whereNode_group, !mapM_app, mapM_cons, Hnone.
    destruct (mapM _ before) as [r1|e]; [|done]. rewrite !bind_Ok.
    destruct (mapM _ after) as [r2|e]; [|done]. rewrite !bind_Ok.
    by rewrite !presentOnes_app.
  - intros only. rewrite whereNode_group, mapM_cons, mapM_nil.
    destruct (whereNodeToDrizzleExpr only fields operators strict)
      as [[e|]|e]; reflexivity.
Qed.

Lemma fmap_Throw_inv {A B} (f : A -> B) (m : Result A) e :
  f <$> m = Throw e -> m = Throw e.
Proof. destruct m; [discriminate|]. by intros [= ->]. Qed.

(** The ways a tree compilation can fail. *)
Lemma where_errors_characterised_aux node fields operators strict e :
  primitivesReturn operators ->
  whereNodeToDrizzleExpr node fields operators strict = Throw e ->
  (strict = true
   /\ exists field condition,
        leafOf field condition node /\ fields !! field = None
        /\ e = FieldMappingError field)
  \/ (exists field condition c values,
        leafOf field condition node /\ fields !! field = Some c
        /\ op condition = op_contains values
        /\ ((o_contains operators = None /\ e = UnsupportedOperatorError)
            \/ exists contains,
                 o_contains operators = Some contains
                 /\ contains c values = Throw e)).
Proof.
  intros Hprimitives.
  induction node as [field condition|type items IH] using WhereNode_nested_ind.
  - rewrite whereNode_filter. unfold getMappedColumn.
    destruct (fields !! field) as [c|] eqn:Hc.
    + rewrite bind_Ok. intros Hthrow. right.
      apply fmap_Throw_inv in Hthrow.
      apply conditionToDrizzleExpr_Throw_inv in Hthrow
        as (values & Hop & Hcases); [|done].
      exists field, condition, c, values.
      split; [constructor|]. by repeat split.
    + destruct strict; [|discriminate]. intros [= <-]. left.
      split; [done|]. exists field, condition. repeat split; [constructor|done].
  - rewrite whereNode_group.
    destruct (mapM _ items) as [compiled|e'] eqn:Hmap.
    + rewrite bind_Ok. intros Hthrow.
      pose proof (combineGroup_returns type operators (presentOnes compiled)
                    (primitivesReturn_combines _ Hprimitives)) as Hret.
      rewrite Hthrow in Hret. destruct Hret.
    + intros [= ->].
      apply mapM_Throw_inv in Hmap as (pre & item & post & -> & _ & Hitem).
      rewrite Forall_forall in IH.
      assert (Hin : item ∈ pre ++ item :: post).
      { apply elem_of_app. right. apply list_elem_of_here. }
      destruct (IH item Hin Hitem)
        as [(Hs & f & c & Hleaf & Hnone & He)
           |(f & c & column & v & Hleaf & Hmapped & Hop & Hcases)].
      * left. split; [done|]. exists f, c.
        repeat split; [by eapply leafOf_item|done..].
      * right. exists f, c, column, v.
        repeat split; [by eapply leafOf_item|done..].
Qed.

(** X5: with an operator set whose primitives other than [contains]
    return, a tree compilation can fail in three ways only: under strict
    mapping on a leaf whose field has no value in the mapping, with the
    field-mapping error of that field; on a [$contains] leaf whose field
    has a value when the operator set has no [contains], with the
    unsupported-operator error; or on such a leaf with the error that the
    [contains] primitive throws on the column and the values of the leaf. *)
Theorem where_errors_characterised node fields operators strict e :
  primitivesReturn operators ->
  whereNodeToDrizzleExpr node fields operators strict = Throw e ->
  (strict = true
   /\ exists field condition,
        leafOf field condition node /\ fields !! field = None
        /\ e = FieldMappingError field)
  \/ (exists field condition c values,
        leafOf field condition node /\ fields !! field = Some c
        /\ op condition = op_contains values
        /\ ((o_contains operators = None /\ e = UnsupportedOperatorError)
            \/ exists contains,
                 o_contains operators = Some contains
                 /\ contains c values = Throw e)).
Proof. apply where_errors_characterised_aux. Qed.

(** ** More on conditions *)

(** X6: negation is applied after the operator, once: a condition with
    [not: true] compiles to the [not] primitive applied to what the same
    condition without the flag compiles to, [not: false] is the same as no
    flag, and a failure of the operator is not affected by the flag. *)
Theorem negation_wraps_afterwards g o (column : TColumn) operators :
  conditionToDrizzleExpr (mkCondition g o (Some true)) column operators
    = (conditionToDrizzleExpr (mkCondition g o None) column operators
       ≫= o_not operators)
  /\ conditionToDrizzleExpr (mkCondition g o (Some false)) column operators
    = conditionToDrizzleExpr (mkCondition g o None) column operators
  /\ forall flag e,
      conditionToDrizzleExpr (mkCondition g o None) column operators = Throw e ->
      conditionToDrizzleExpr (mkCondition g o flag) column operators = Throw e.
Proof.
  split; [|split].
  - by rewrite condition_negation.
  - rewrite condition_negation. unfold negateIf; simpl.
    by destruct (conditionToDrizzleExpr _ _ _).
  - intros flag e He. by rewrite condition_negation, He.
Qed.

(** X7: with an operator set whose primitives other than [contains]
    return, a condition fails exactly when it is a [$contains] and either
    the operator set has no [contains] or the [contains] primitive throws
    on the column and the values; every other condition gives an
    expression. *)
Theorem condition_fails_only_on_contains condition (column : TColumn) operators :
  primitivesReturn operators ->
  (throws (conditionToDrizzleExpr condition column operators)
   <-> exists values,
         op condition = op_contains values
         /\ (o_contains operators = None
             \/ exists contains,
                  o_contains operators = Some contains
                  /\ throws (contains column values))).
Proof.
  intros Hprimitives. split.
  - intros Hthrows. apply throws_Throw in Hthrows as [e Hthrow].
    apply conditionToDrizzleExpr_Throw_inv in Hthrow
      as (values & Hop & [[Hnone _]|(contains & Hsome & Hcontains)]); [| |done].
    + exists values. split; [done|]. by left.
    + exists values. split; [done|]. right. exists contains.
      split; [done|]. by rewrite Hcontains.
  - intros (values & Hop & [Hnone|(contains & Hsome & Hcontains)]);
      unfold conditionToDrizzleExpr; rewrite Hop.
    + by rewrite Hnone.
    + rewrite Hsome. by destruct (contains column values).
Qed.

(** ** More on the select shape *)

Lemma assignAll_lookup (selectShape : gmap string TColumn) writes key c :
  assignAll selectShape writes !! key = Some c ->
  selectShape !! key = Some c \/ (key, c) ∈ writes.
Proof.
  induction writes as [|[k v] writes IH] using rev_ind; [by left|].
  rewrite assignAll_snoc. intros Hlookup.
  assert (assignAll selectShape writes !! key = Some c \/ (k = key /\ v = c))
    as [Hearlier|[-> ->]].
  { unfold assignProperty in Hlookup. case_decide; [by left|].
    destruct (decide (k = key)) as [->|Hne].
    - rewrite lookup_insert_eq in Hlookup. right. by injection Hlookup.
    - rewrite lookup_insert_ne in Hlookup by done. by left. }
  - destruct (IH Hearlier) as [?|?]; [by left|right].
    apply elem_of_app. by left.
  - right. apply elem_of_app. right. apply list_elem_of_here.
Qed.

Lemma assignAll_size_le (selectShape : gmap string TColumn) writes :
  size (assignAll selectShape writes) <= size selectShape + length writes.
Proof.
  induction writes as [|[k v] writes IH] using rev_ind; [simpl; lia|].
  rewrite assignAll_snoc, length_app. simpl.
  unfold assignProperty. case_decide; [lia|].
  destruct (assignAll selectShape writes !! k) eqn:Hk.
  - rewrite map_size_insert_Some by done. lia.
  - rewrite map_size_insert_None by done. lia.
Qed.

Lemma assignAll_empty_iff (writes : list (string * TColumn)) :
  protoKey ∉ writes.*1 ->
  assignAll (∅ : gmap string TColumn) writes = ∅ <-> writes = [].
Proof.
  intros Hproto. split; [|by intros ->].
  destruct writes as [|[k v] writes _] using rev_ind; [done|].
  rewrite fmap_app, not_elem_of_app in Hproto. destruct Hproto as [_ Hk].
  apply not_elem_of_cons in Hk as [Hk _].
  rewrite assignAll_snoc, assignProperty_other by done.
  intros H. by apply insert_non_empty in H.
Qed.

Lemma mappedPaths_elem selectedFields fields p (c : TColumn) :
  (p, c) ∈ mappedPaths selectedFields fields <->
  p ∈ selectedFields /\ fields !! p = Some c.
Proof.
  unfold mappedPaths. rewrite list_elem_of_omap. split.
  - intros (q & Hin & Hq). destruct (fields !! q) eqn:Hf; [|done].
    simpl in Hq. by injection Hq as <- <-.
  - intros [Hin Hc]. exists p. by rewrite Hc.
Qed.

Lemma mappedPaths_nil_iff selectedFields fields :
  mappedPaths selectedFields fields = [] <->
  Forall (fun p => (fields : DrizzleFieldMap TColumn) !! p = None) selectedFields.
Proof.
  unfold mappedPaths. induction selectedFields as [|p rest IH]; simpl.
  - split; [constructor|done].
  - destruct (fields !! p) eqn:Hp; simpl.
    + split; [done|]. intros H; inversion H; congruence.
    + rewrite IH. split; [by constructor|]. by intros H; inversion H.
Qed.

(** X8: the select shape holds nothing that was not asked for: each of
    its entries maps the base alias of a requested path, suffixed or not,
    to the value that the lookup [fields[path]] gives for that path, own
    or inherited; and it never has more entries than the request has paths
    with such a value. *)
Theorem select_shape_entries_requested selectedFields fields strict selectAlias
    (selectShape : gmap string TColumn) :
  buildSelectShapeInternal selectedFields fields strict selectAlias
    = Ok selectShape ->
  (forall key c,
     selectShape !! key = Some c ->
     exists fieldPath collisionIndex,
       fieldPath ∈ selectedFields /\ fields !! fieldPath = Some c
       /\ key = finalAliasOf (selectAlias fieldPath) collisionIndex)
  /\ size selectShape <= length (mappedPaths selectedFields fields)
  /\ length (mappedPaths selectedFields fields) <= length selectedFields.
Proof.
  intros Hbuild. apply select_aliases_by_occurrence in Hbuild as ->.
  split; [|split].
  - intros key c Hlookup.
    apply assignAll_lookup in Hlookup as [Hempty|Hin];
      [by rewrite lookup_empty in Hempty|].
    apply list_elem_of_lookup_1 in Hin as [i Hi].
    unfold aliasedSpec, aliasedFrom in Hi. rewrite list_lookup_imap in Hi.
    destruct (mappedPaths selectedFields fields !! i) as [[p c']|] eqn:Hp;
      [|done].
    simpl in Hi. injection Hi as Hkey Hcol. subst c'.
    apply list_elem_of_lookup_2, mappedPaths_elem in Hp as [Hin Hc].
    eexists p, _. repeat split; [done..|]. symmetry. exact Hkey.
  - etrans; [apply assignAll_size_le|]. rewrite map_size_empty.
    unfold aliasedSpec, aliasedFrom. by rewrite length_imap.
  - unfold mappedPaths. induction selectedFields as [|p rest IH]; [done|].
    unfold omap in *. simpl. destruct (fields !! p); simpl; lia.
Qed.

(** X9: when no requested path gets the alias [__proto__], the select
    shape a build returns is empty exactly when no requested path has a
    value in the mapping, in particular for an empty request. *)
Theorem select_shape_empty_iff selectedFields fields strict selectAlias
    (selectShape : gmap string TColumn) :
  Forall (fun p => selectAlias p <> protoKey) selectedFields ->
  buildSelectShapeInternal selectedFields fields strict selectAlias
    = Ok selectShape ->
  (selectShape = ∅ <-> Forall (fun p => fields !! p = None) selectedFields)
  /\ (selectedFields = [] -> selectShape = ∅).
Proof.
  intros Halias Hbuild. apply select_aliases_by_occurrence in Hbuild as ->.
  assert (Hiff : assignAll ∅ (aliasedSpec selectAlias
                                (mappedPaths selectedFields fields)) = ∅
                 <-> Forall (fun p => fields !! p = None) selectedFields).
  { rewrite assignAll_empty_iff, <- mappedPaths_nil_iff.
    - unfold aliasedSpec, aliasedFrom. split.
      + intros H. apply (f_equal length) in H. rewrite length_imap in H.
        by destruct (mappedPaths selectedFields fields).
      + by intros ->.
    - apply aliasedFrom_no_proto, Forall_forall. intros entry Hentry.
      eapply Forall_forall in Halias; [exact Halias|].
      by apply (mappedPaths_path _ fields). }
  split; [exact Hiff|]. intros ->. apply Hiff. constructor.
Qed.

(** ** More on aliases and LIKE patterns *)

Lemma append_char c s : str c +:+ s = String c s.
Proof. reflexivity. Qed.

Lemma replaceAll_char_length s c d :
  String.length (replaceAll s c (str d)) = String.length s.
Proof.
  induction s as [|x s IH]; [reflexivity|].
  cbn [replaceAll]. destruct (Ascii.eqb x c); rewrite ?append_char;
    cbn [String.length]; by rewrite IH.
Qed.

Lemma replaceAll_char_removes s c d :
  c <> d -> occursIn c (replaceAll s c (str d)) = false.
Proof.
  intros Hne. induction s as [|x s IH]; [reflexivity|].
  cbn [replaceAll]. destruct (Ascii.eqb_spec x c) as [->|Hx];
    rewrite ?append_char; cbn [occursIn].
  - rewrite IH. destruct (Ascii.eqb_spec d c); [congruence|done].
  - rewrite IH. by destruct (Ascii.eqb_spec x c).
Qed.

Lemma replaceAll_absent s c r : occursIn c s = false -> replaceAll s c r = s.
Proof.
  induction s as [|x s IH]; [reflexivity|].
  simpl. destruct (Ascii.eqb x c); [discriminate|].
  simpl. by intros ->%IH.
Qed.

Lemma replaceAll_fixed_absent s c d :
  c <> d -> replaceAll s c (str d) = s -> occursIn c s = false.
Proof.
  intros Hne Heq. rewrite <- Heq. by apply replaceAll_char_removes.
Qed.

(** X10: the default alias of a path has no dot and the length of the
    path; it is the path itself exactly when the path has no dot, so
    applying it twice changes nothing more. *)
Theorem default_alias_has_no_dot path :
  occursIn dot (defaultSelectAlias path) = false
  /\ String.length (defaultSelectAlias path) = String.length path
  /\ (defaultSelectAlias path = path <-> occursIn dot path = false)
  /\ defaultSelectAlias (defaultSelectAlias path) = defaultSelectAlias path.
Proof.
  unfold defaultSelectAlias.
  assert (Hremoved : occursIn dot (replaceAll path dot (str underscore)) = false)
    by (by apply replaceAll_char_removes).
  split; [exact Hremoved|]. split; [apply replaceAll_char_length|]. split.
  - split; [by apply replaceAll_fixed_absent|apply replaceAll_absent].
  - by apply replaceAll_absent.
Qed.

Lemma escapedSpec_length value :
  String.length value <= String.length (escapedSpec value)
  <= 2 * String.length value.
Proof.
  induction value as [|c rest IH]; [simpl; lia|].
  cbn [escapedSpec]. destruct (isLikeMeta c); simpl; lia.
Qed.

Lemma escapedSpec_unchanged value :
  escapedSpec value = value <->
  occursIn backslash value = false /\ occursIn percent value = false
  /\ occursIn underscore value = false.
Proof.
  induction value as [|c rest IH]; [done|].
  cbn [escapedSpec occursIn]. destruct (isLikeMeta c) eqn:Hmeta.
  - split.
    + intros Heq. injection Heq as _ Hrest.
      apply (f_equal String.length) in Hrest. simpl in Hrest.
      pose proof (escapedSpec_length rest). lia.
    + apply isLikeMeta_true in Hmeta as [->|[->| ->]]; simpl;
        intros (H1 & H2 & H3); discriminate.
  - apply isLikeMeta_false in Hmeta as (H1 & H2 & H3).
    rewrite H1, H2, H3. simpl. rewrite <- IH.
    split; [by intros [= ?]|by intros ->].
Qed.

(** X11: distinct values are escaped to distinct patterns, an escaped
    value is at most twice as long as the value, and the escaping changes
    nothing exactly when the value has no backslash, percent sign or
    underscore. *)
Theorem escapeLike_faithful value :
  (forall other, escapeLike value = escapeLike other -> value = other)
  /\ String.length value <= String.length (escapeLike value)
     <= 2 * String.length value
  /\ (escapeLike value = value <->
      occursIn backslash value = false /\ occursIn percent value = false
      /\ occursIn underscore value = false).
Proof.
  split; [|split].
  - intros other Heq.
    assert (H : likeLiteral (escapeLike value) = likeLiteral (escapeLike other))
      by (by rewrite Heq).
    rewrite !escapeLike_escapedSpec, !likeLiteral_escapedSpec in H.
    by injection H.
  - rewrite escapeLike_escapedSpec. apply escapedSpec_length.
  - rewrite escapeLike_escapedSpec. apply escapedSpec_unchanged.
Qed.

(** ** More on the clause bundle *)

Lemma clauses_Ok_inv (pagination : Pagination Scalar)
    (config : BuildDrizzleClausesConfig Scalar TColumn TWhereExpr TOrderByExpr)
    clauses :
  buildDrizzleClausesFromPagination pagination config = Ok clauses ->
  let strict := default true (strictFieldMapping config) in
  exists selectShape where_ orderBy,
    buildSelectShapeInternal (default [] (select pagination)) (fields config)
      strict (default defaultSelectAlias (selectAlias config)) = Ok selectShape
    /\ match filters pagination with
       | Some node =>
           whereNodeToDrizzleExpr node (fields config) (operators config) strict
       | None => Ok None
       end = Ok where_
    /\ orderByOf (sortBy pagination) (fields config) (operators config) strict
       = Ok orderBy
    /\ c_select clauses = selectShape
    /\ c_where clauses = where_
    /\ c_orderBy clauses = match orderBy with
                           | Some ((_ :: _) as orderBy) => Some orderBy
                           | _ => None
                           end.
Proof.
  unfold buildDrizzleClausesFromPagination. cbv zeta.
  destruct (buildSelectShapeInternal _ _ _ _) as [selectShape|]; [|discriminate].
  rewrite bind_Ok.
  destruct (match filters pagination with Some _ => _ | None => _ end)
    as [where_|]; [|discriminate].
  rewrite bind_Ok. destruct (orderByOf _ _ _ _) as [orderBy|]; [|discriminate].
  rewrite bind_Ok. intros [= <-]. by exists selectShape, where_, orderBy.
Qed.

Lemma orderedAs_nil_iff fields operators sortItems :
  orderedAs fields operators sortItems []
  <-> Forall (fun sortItem => fields !! property sortItem = None) sortItems.
Proof.
  split.
  - remember [] as expressions eqn:Hnil. intros Hordered.
    induction Hordered; [constructor| |discriminate..].
    constructor; auto.
  - induction sortItems as [|[path direction] rest IH]; [constructor|].
    intros Hall. apply Forall_cons in Hall as [Hhere Hall].
    apply orderedAs_unmapped; auto.
Qed.

(** X12: the ordering of a bundle is never an empty list: it is absent
    exactly when the request has no sort entry whose field has a value in
    the mapping, and otherwise holds, in request order, for each such
    entry what [asc] gives on the value when the entry is ascending and
    what [desc] gives when it is descending. *)
Theorem order_by_absent_or_non_empty (pagination : Pagination Scalar)
    (config : BuildDrizzleClausesConfig Scalar TColumn TWhereExpr TOrderByExpr)
    clauses :
  buildDrizzleClausesFromPagination pagination config = Ok clauses ->
  c_orderBy clauses <> Some []
  /\ (c_orderBy clauses = None <->
      forall sortItems,
        sortBy pagination = Some sortItems ->
        Forall (fun sortItem => fields config !! property sortItem = None)
          sortItems)
  /\ (forall orderBy,
        c_orderBy clauses = Some orderBy ->
        exists sortItems,
          sortBy pagination = Some sortItems
          /\ orderedAs (fields config) (operators config) sortItems orderBy).
Proof.
  intros Hbuild.
  apply clauses_Ok_inv in Hbuild as (_ & _ & r & _ & _ & Hr & _ & _ & ->).
  destruct (sortBy pagination) as [sortItems|]; simpl.
  - apply orderByOf_ordered in Hr as (expressions & -> & Hordered).
    destruct expressions as [|e es].
    + split; [done|]. split; [|done]. split; [|done].
      intros _ ? [= <-]. by apply (orderedAs_nil_iff _ (operators config)).
    + split; [done|]. split.
      * split; [done|]. intros Hall. specialize (Hall sortItems eq_refl).
        apply (orderedAs_nil_iff _ (operators config)) in Hall.
        by pose proof (orderedAs_functional _ _ _ _ _ Hordered Hall).
      * intros orderBy [= <-]. by exists sortItems.
  - injection Hr as <-.
    split; [done|]. split; [|done]. split; [|done]. by intros _ ? [=].
Qed.

(** X13: when every field the request refers to is mapped (select paths,
    filter leaves and sort keys), the bundle does not depend on the mapping
    mode: strict, permissive and default configurations give the same
    outcome. *)
Theorem clauses_mode_irrelevant_when_mapped (pagination : Pagination Scalar)
    (fields : DrizzleFieldMap TColumn) operators selectAlias s1 s2 :
  (forall selectedFields,
     select pagination = Some selectedFields ->
     Forall (fun p => is_Some (fields !! p)) selectedFields) ->
  (forall node field condition,
     filters pagination = Some node -> leafOf field condition node ->
     is_Some (fields !! field)) ->
  (forall sortItems,
     sortBy pagination = Some sortItems ->
     Forall (fun sortItem => is_Some (fields !! property sortItem)) sortItems) ->
  buildDrizzleClausesFromPagination pagination
    (mkConfig fields operators selectAlias s1)
  = buildDrizzleClausesFromPagination pagination
      (mkConfig fields operators selectAlias s2).
Proof.
  intros Hselect Hfilters HsortBy.
  assert (Hany : forall s,
    buildDrizzleClausesFromPagination pagination
      (mkConfig fields operators selectAlias s)
    = buildDrizzleClausesFromPagination pagination
        (mkConfig fields operators selectAlias (Some false))).
  { intros s. unfold buildDrizzleClausesFromPagination; simpl.
    destruct (default true s); [|reflexivity].
    assert (Hs : Forall (fun p => is_Some (fields !! p))
                   (default [] (select pagination))).
    { destruct (select pagination); [by apply Hselect|constructor]. }
    unfold buildSelectShapeInternal. rewrite !selectLoop_returns by auto.
    rewrite !bind_Ok.
    assert (Hw : match filters pagination with
                 | Some node => whereNodeToDrizzleExpr node fields operators true
                 | None => Ok None
                 end
                 = match filters pagination with
                   | Some node => whereNodeToDrizzleExpr node fields operators false
                   | None => Ok None
                   end).
    { destruct (filters pagination) as [node|]; [|reflexivity].
      apply where_mode_irrelevant_when_mapped. intros f c. by apply Hfilters. }
    rewrite Hw.
    assert (Ho : orderByOf (sortBy pagination) fields operators true
                 = orderByOf (sortBy pagination) fields operators false).
    { destruct (sortBy pagination) as [sortItems|]; [|reflexivity].
      apply orderByOf_mapped. by apply HsortBy. }
    by rewrite Ho. }
  by rewrite (Hany s1), (Hany s2).
Qed.

(** ** Which errors a build can throw *)




(** X15: for a request of type [LIMIT_OFFSET] whose page and limit are
    integers, the limit not negative, the page below [2^53] and
    [max(page, 1) * limit] at most [2^53], the offset is never negative;
    and from page 1 on, the offset of the next page is the offset of the
    page plus the limit. *)
Theorem offset_pages_tile (pagination next : Pagination Scalar)
    (config : BuildDrizzleClausesConfig Scalar TColumn TWhereExpr TOrderByExpr)
    clauses (p l : Z) :
  buildDrizzleClausesFromPagination pagination config = Ok clauses ->
  type pagination = LIMIT_OFFSET ->
  page pagination = Some (Finite p) -> limit pagination = Some (Finite l) ->
  (0 <= l)%Z ->
  (p < 2 ^ 53)%Z ->
  (Z.max p 1 * l <= 2 ^ 53)%Z ->
  exists offset : Z,
    c_offset clauses = Some (Finite offset) /\ (0 <= offset)%Z
    /\ forall clauses',
        (1 <= p)%Z ->
        type next = LIMIT_OFFSET -> page next = Some (Finite (p + 1)) ->
        limit next = Some (Finite l) ->
        buildDrizzleClausesFromPagination next config = Ok clauses' ->
        c_offset clauses' = Some (Finite (offset + l)).
Proof.
  intros Hbuild Htype Hpage Hlimit Hl Hp Hproduct.
  apply clauses_limit_offset in Hbuild as [_ ->].
  rewrite (offsetOf_limit_offset _ p l); [|done..|lia|].
  - eexists; split; [reflexivity|]. split; [nia|].
    intros clauses' Hone Htype' Hpage' Hlimit' Hbuild'.
    apply clauses_limit_offset in Hbuild' as [_ ->].
    rewrite (offsetOf_limit_offset _ (p + 1) l); [|done..|lia|].
    + do 2 f_equal. nia.
    + rewrite Z.abs_eq by nia.
      replace (Z.max (p + 1) 1 - 1)%Z with (Z.max p 1) by lia. exact Hproduct.
  - rewrite Z.abs_eq by nia. nia.
Qed.

End Properties.

(** ** The two dialects and the query *)

Lemma condition_same_in_both_dialects {Scalar} (condition : Condition Scalar)
    (c : Column) :
  sameInBothDialects condition = true ->
  conditionToDrizzleExpr condition c createPgDrizzleOperators
  = conditionToDrizzleExpr condition c createMySqlDrizzleOperators.
Proof.
  unfold sameInBothDialects, conditionToDrizzleExpr.
  by destruct (op condition).
Qed.

(** X16: the two built-in operator sets differ on [$ilike], [$sw] and
    [$contains] only: a filter tree without such a leaf compiles to the
    same predicate for PostgreSQL and for MySQL, and every sort list to the
    same ordering. *)
Theorem dialects_agree_outside_like_and_contains {Scalar}
    (node : WhereNode Scalar) (fields : DrizzleFieldMap Column) strict :
  (forall field condition,
     leafOf field condition node -> sameInBothDialects condition = true) ->
  whereNodeToDrizzleExpr node fields (getOperatorsForDialect pg) strict
  = whereNodeToDrizzleExpr node fields (getOperatorsForDialect mysql) strict
  /\ forall sortBy,
      orderByOf sortBy fields (@getOperatorsForDialect Scalar pg) strict
      = orderByOf sortBy fields (@getOperatorsForDialect Scalar mysql) strict.
Proof.
  intros Hsame. split; [|by intros [sortItems|]].
  induction node as [field condition|type items IH] using WhereNode_nested_ind.
  - rewrite !whereNode_filter.
    destruct (getMappedColumn field fields strict) as [[c|]|]; [|done..].
    rewrite !bind_Ok. simpl.
    by rewrite (condition_same_in_both_dialects condition c
                  (Hsame field condition (leafOf_here _ _))).
  - rewrite !whereNode_group.
    rewrite (mapM_ext_Forall
               (fun itemNode => whereNodeToDrizzleExpr itemNode fields
                                  (getOperatorsForDialect pg) strict)
               (fun itemNode => whereNodeToDrizzleExpr itemNode fields
                                  (getOperatorsForDialect mysql) strict)).
    + destruct (mapM _ items) as [compiled|]; [|done]. rewrite !bind_Ok.
      unfold combineGroup. by destruct (presentOnes compiled) as [|? [|? ?]], type.
    + rewrite Forall_forall in IH. apply Forall_forall. intros item Hin.
      apply IH; [done|]. intros f c Hleaf. apply (Hsame f c).
      by eapply leafOf_item.
Qed.

Lemma apply_Ok_inv {Scalar Q} `{DrizzleDynamicQuery Scalar Q}
    (pagination : Pagination Scalar)
    (config : ApplyDrizzlePaginationOnQueryConfig Scalar Q) q clauses :
  applyDrizzlePaginationOnQuery pagination config = Ok (q, clauses) ->
  buildDrizzleClausesFromPagination pagination
    {| fields := a_fields config;
       operators := default (getOperatorsForDialect (a_dialect config))
                      (a_operators config);
       selectAlias := a_selectAlias config;
       strictFieldMapping := a_strictFieldMapping config |} = Ok clauses
  /\ q = (let query := a_buildQuery config (c_select clauses) in
          let query := match c_where clauses with
                       | Some expression => q_where query expression
                       | None => query
                       end in
          let query := match c_orderBy clauses with
                       | Some ((_ :: _) as orderBy) => q_orderBy query orderBy
                       | _ => query
                       end in
          let query := match c_limit clauses with
                       | Some value => q_limit query value
                       | None => query
                       end in
          match c_offset clauses with
          | Some value => q_offset query value
          | None => query
          end).
Proof.
  unfold applyDrizzlePaginationOnQuery. cbv zeta.
  destruct (buildDrizzleClausesFromPagination _ _) as [built|]; [|discriminate].
  rewrite bind_Ok. by intros [= <- <-].
Qed.

Lemma clauses_orderBy_non_empty {Scalar TColumn TWhereExpr TOrderByExpr}
    (pagination : Pagination Scalar)
    (config : BuildDrizzleClausesConfig Scalar TColumn TWhereExpr TOrderByExpr)
    clauses :
  buildDrizzleClausesFromPagination pagination config = Ok clauses ->
  c_orderBy clauses <> Some [].
Proof.
  intros Hbuild.
  apply clauses_Ok_inv in Hbuild as (_ & _ & r & _ & _ & _ & _ & _ & ->).
  by destruct r as [[|? ?]|].
Qed.

(** X17: a query spy handed to the entry point receives one [where] call
    when the bundle has a predicate and none otherwise, one [orderBy] call
    with all the order expressions when the bundle has an ordering and none
    otherwise, and likewise one [limit] and one [offset] call at most, each
    with the value of the bundle; no [orderBy] call has an empty argument
    list. *)
Theorem spy_calls_match_clauses (pagination : Pagination JsValue)
    (config : ApplyDrizzlePaginationOnQueryConfig JsValue QuerySpy) q clauses :
  applyDrizzlePaginationOnQuery pagination config = Ok (q, clauses) ->
  whereCalls q
    = whereCalls (a_buildQuery config (c_select clauses))
      ++ option_list (c_where clauses)
  /\ orderByCalls q
    = orderByCalls (a_buildQuery config (c_select clauses))
      ++ option_list (c_orderBy clauses)
  /\ limitCalls q
    = limitCalls (a_buildQuery config (c_select clauses))
      ++ option_list (c_limit clauses)
  /\ offsetCalls q
    = offsetCalls (a_buildQuery config (c_select clauses))
      ++ option_list (c_offset clauses)
  /\ Forall (fun expressions => expressions <> []) (option_list (c_orderBy clauses)).
Proof.
  intros Happly. apply apply_Ok_inv in Happly as [Hbuild ->].
  apply clauses_orderBy_non_empty in Hbuild.
  destruct (c_where clauses), (c_orderBy clauses) as [[|? ?]|],
    (c_limit clauses), (c_offset clauses);
    try done; simpl; rewrite ?app_nil_r; repeat split; by repeat constructor.
Qed.

(** X18: the entry point calls the query in a fixed order: [where], then
    [orderBy], then [limit], then [offset], each once when the clause is
    present in the bundle and not at all when it is absent. *)
Theorem query_calls_in_order {Scalar} (pagination : Pagination Scalar)
    (config : ApplyDrizzlePaginationOnQueryConfig Scalar (list (QueryCall Scalar)))
    q clauses :
  applyDrizzlePaginationOnQuery pagination config = Ok (q, clauses) ->
  q = a_buildQuery config (c_select clauses)
      ++ option_list (WhereCall <$> c_where clauses)
      ++ option_list (OrderByCall <$> c_orderBy clauses)
      ++ option_list (LimitCall <$> c_limit clauses)
      ++ option_list (OffsetCall <$> c_offset clauses).
Proof.
  intros Happly. apply apply_Ok_inv in Happly as [Hbuild ->].
  apply clauses_orderBy_non_empty in Hbuild.
  destruct (c_where clauses), (c_orderBy clauses) as [[|? ?]|],
    (c_limit clauses), (c_offset clauses);
    try done; simpl; by rewrite <- ?app_assoc, ?app_nil_r.
Qed.

(** ** The properties on the fixtures of the unit tests *)

(** X20 on the test "throws when a field is missing and strictFieldMapping
    is enabled". *)
Lemma unmapped_leaf_witness :
  nameOnly !! "missing" = None
  /\ whereNodeToDrizzleExpr (FilterNode "missing" (cond (op_eq (JsNumber 1))))
       nameOnly createPgDrizzleOperators true
     = Throw (FieldMappingError "missing")
  /\ (exists before after,
        message (FieldMappingError "missing") = before +:+ "missing" +:+ after)
  /\ whereNodeToDrizzleExpr (FilterNode "missing" (cond (op_eq (JsNumber 1))))
       nameOnly createPgDrizzleOperators false
     = Ok None.
Proof.
  split; [reflexivity|].
  apply (unmapped_leaf_strict_or_pruned "missing" (cond (op_eq (JsNumber 1)))
           nameOnly createPgDrizzleOperators).
  reflexivity.
Defined.

(** C8: [toString] is no key of the mapping [{name: users.name}], yet the
    filter leaf on it does not fail under strict mapping: the lookup
    [fields[fieldPath]] answers with the function that every object
    inherits from [Object.prototype], and the leaf compiles to [isNull] of
    that function; under permissive mapping it is not pruned either. *)
Theorem inherited_name_passes_strict_leaf :
  ownFields nameOnly !! "toString" = None
  /\ getMappedColumn "toString" nameOnly true
     = Ok (Some (prototypeMember "toString"))
  /\ whereNodeToDrizzleExpr (FilterNode "toString" (cond op_null))
       nameOnly (@createPgDrizzleOperators JsValue) true
     = Ok (Some (SqlIsNull (prototypeMember "toString")))
  /\ whereNodeToDrizzleExpr (FilterNode "toString" (cond op_null))
       nameOnly (@createPgDrizzleOperators JsValue) false
     = Ok (Some (SqlIsNull (prototypeMember "toString")))
  /\ c_where <$> buildDrizzleClausesFromPagination
                   (mkPagination LIMIT_OFFSET (Some (Finite 1)) (Some (Finite 10))
                      None None (Some (FilterNode "toString" (cond op_null))))
                   (pgConfig nameOnly (Some true))
     = Ok (Some (SqlIsNull (prototypeMember "toString"))).
Proof. repeat split. Qed.

(** C5 on the group of the test "keeps single mapped child from composite
    filters in non strict mode" with one more mapped child: two children
    survive the pruned one and are combined, in order, by the primitive of
    the group; with one survivor the group is that child, with none it is
    absent. *)
Lemma group_survivors_witness :
  Forall2 (fun item result =>
             whereNodeToDrizzleExpr item nameOnly createPgDrizzleOperators false
             = Ok result)
    [unknownFilter; nameFilter; bobFilter]
    [None; Some (SqlEq users_name (JsString "alice"));
     Some (SqlEq users_name (JsString "bob"))]
  /\ survivorsOf
       [None; Some (SqlEq users_name (JsString "alice"));
        Some (SqlEq users_name (JsString "bob"))]
       [SqlEq users_name (JsString "alice"); SqlEq users_name (JsString "bob")]
  /\ whereNodeToDrizzleExpr
       (GroupNode and_type [unknownFilter; nameFilter; bobFilter])
       nameOnly createPgDrizzleOperators false
     = Ok (Some (SqlAnd [SqlEq users_name (JsString "alice");
                         SqlEq users_name (JsString "bob")]))
  /\ whereNodeToDrizzleExpr
       (GroupNode or_type [unknownFilter; nameFilter; bobFilter])
       nameOnly createPgDrizzleOperators false
     = Ok (Some (SqlOr [SqlEq users_name (JsString "alice");
                        SqlEq users_name (JsString "bob")]))
  /\ whereNodeToDrizzleExpr (GroupNode and_type [unknownFilter; nameFilter])
       nameOnly createPgDrizzleOperators false
     = Ok (Some (SqlEq users_name (JsString "alice")))
  /\ whereNodeToDrizzleExpr (GroupNode or_type [unknownFilter])
       nameOnly createPgDrizzleOperators false
     = Ok None.
Proof.
  assert (Hthree : Forall2 (fun item result =>
             whereNodeToDrizzleExpr item nameOnly createPgDrizzleOperators false
             = Ok result)
    [unknownFilter; nameFilter; bobFilter]
    [None; Some (SqlEq users_name (JsString "alice"));
     Some (SqlEq users_name (JsString "bob"))]).
  { repeat constructor. }
  assert (Hsurvivors : survivorsOf
       [None; Some (SqlEq users_name (JsString "alice"));
        Some (SqlEq users_name (JsString "bob"))]
       [SqlEq users_name (JsString "alice"); SqlEq users_name (JsString "bob")]).
  { repeat constructor. }
  assert (Htwo : Forall2 (fun item result =>
             whereNodeToDrizzleExpr item nameOnly createPgDrizzleOperators false
             = Ok result)
    [unknownFilter; nameFilter]
    [None; Some (SqlEq users_name (JsString "alice"))]).
  { repeat constructor. }
  assert (Hone : Forall2 (fun item result =>
             whereNodeToDrizzleExpr item nameOnly createPgDrizzleOperators false
             = Ok result)
    [unknownFilter] [@None (SQL JsValue)]).
  { repeat constructor. }
  split; [exact Hthree|]. split; [exact Hsurvivors|].
  split.
  { apply (proj2 (proj2 (group_combines_surviving_children and_type _ _ _
                           nameOnly createPgDrizzleOperators false
                           Hthree Hsurvivors))).
    simpl. lia. }
  split.
  { apply (proj2 (proj2 (group_combines_surviving_children or_type _ _ _
                           nameOnly createPgDrizzleOperators false
                           Hthree Hsurvivors))).
    simpl. lia. }
  split.
  { apply (proj1 (proj2 (group_combines_surviving_children and_type _ _
                           [SqlEq users_name (JsString "alice")]
                           nameOnly createPgDrizzleOperators false Htwo
                           ltac:(repeat constructor)))).
    reflexivity. }
  apply (proj1 (group_combines_surviving_children or_type _ _ []
                  nameOnly createPgDrizzleOperators false Hone
                  ltac:(repeat constructor))).
  reflexivity.
Defined.

(** C7 on the test "throws on contains when operator set has no contains
    implementation": the MySQL operator set. *)
Lemma contains_mysql_witness :
  op containsCondition = op_contains ["x"]
  /\ o_contains (@createMySqlDrizzleOperators JsValue) = None
  /\ conditionToDrizzleExpr containsCondition users_name
       (@createMySqlDrizzleOperators JsValue)
     = Throw UnsupportedOperatorError
  /\ whereNodeToDrizzleExpr (FilterNode "name" containsCondition) nameOnly
       (@createMySqlDrizzleOperators JsValue) true
     = Throw UnsupportedOperatorError
  /\ throws (whereNodeToDrizzleExpr
               (GroupNode or_type
                  [unknownFilter; FilterNode "name" containsCondition])
               nameOnly (@createMySqlDrizzleOperators JsValue) false).
Proof.
  pose proof (contains_without_primitive_throws (TColumn := Column)
                containsCondition ["x"] (@createMySqlDrizzleOperators JsValue)
                eq_refl eq_refl) as (Hcond & Hleaf & Htree).
  assert (Hname : is_Some (nameOnly !! "name")) by (eexists; reflexivity).
  split; [reflexivity|]. split; [reflexivity|].
  split; [apply Hcond|]. split; [apply Hleaf; exact Hname|].
  apply (Htree _ "name"); [exact Hname|].
  eapply leafOf_item; [|apply leafOf_here].
  apply list_elem_of_further, list_elem_of_here.
Defined.

(** C1 as stated fails on the unit-test field mapping under strict
    mapping: the unmapped select path makes the build, and the whole call,
    throw. *)
Lemma select_strict_counterexample :
  buildSelectShapeInternal ["unknownSelect"] nameOnly true defaultSelectAlias
    = Throw (FieldMappingError "unknownSelect")
  /\ buildDrizzleClausesFromPagination
       (mkPagination LIMIT_OFFSET (Some (Finite 1)) (Some (Finite 10))
          (Some ["unknownSelect"]) None None)
       (pgConfig nameOnly None)
     = Throw (FieldMappingError "unknownSelect").
Proof. split; reflexivity. Qed.

(** C1 (as amended) on the select list of the tests, with a mapped path
    before the unmapped one. *)
Lemma select_shape_policy_witness :
  Forall (fun p => inheritedFields nameOnly p = None) ["name"; "unknownSelect"]
  /\ Forall (fun p => defaultSelectAlias p <> protoKey) ["name"; "unknownSelect"]
  /\ buildSelectShapeInternal ["name"; "unknownSelect"] nameOnly false
       defaultSelectAlias
     = Ok (insertAll
             (aliasedSpec defaultSelectAlias
                (mappedPaths ["name"; "unknownSelect"] (ownOnly nameOnly))))
  /\ insertAll
       (aliasedSpec defaultSelectAlias
          (mappedPaths ["name"; "unknownSelect"] (ownOnly nameOnly)))
     = {[ "name" := users_name ]}
  /\ ownOnly nameOnly !! "unknownSelect" = None
  /\ buildSelectShapeInternal ["name"; "unknownSelect"] nameOnly true
       defaultSelectAlias
     = Throw (FieldMappingError "unknownSelect").
Proof.
  assert (Hown : Forall (fun p => inheritedFields nameOnly p = None)
                   ["name"; "unknownSelect"]).
  { repeat constructor. }
  assert (Halias : Forall (fun p => defaultSelectAlias p <> protoKey)
                     ["name"; "unknownSelect"]).
  { repeat constructor; discriminate. }
  assert (Hname : Forall (fun q => is_Some (ownOnly nameOnly !! q)) ["name"]).
  { repeat constructor. eexists; reflexivity. }
  split; [exact Hown|]. split; [exact Halias|].
  split.
  { apply (proj1 (select_shape_mapping_policy ["name"; "unknownSelect"] nameOnly
                    defaultSelectAlias Hown Halias)). }
  split; [reflexivity|]. split; [reflexivity|].
  apply (proj2 (proj2 (select_shape_mapping_policy ["name"; "unknownSelect"]
                         nameOnly defaultSelectAlias Hown Halias))
           ["name"] "unknownSelect" []);
    [reflexivity|exact Hname|reflexivity].
Defined.

(** C2 as stated fails on the unit-test field mapping under strict
    mapping: the unmapped sort key makes the call throw. *)
Lemma order_by_strict_counterexample :
  orderByOf (Some [mkSortItem "unknownSort" ASC]) nameOnly
    (@createPgDrizzleOperators JsValue) true
    = Throw (FieldMappingError "unknownSort")
  /\ buildDrizzleClausesFromPagination
       (mkPagination LIMIT_OFFSET (Some (Finite 1)) (Some (Finite 10)) None
          (Some [mkSortItem "unknownSort" ASC]) None)
       (pgConfig nameOnly None)
     = Throw (FieldMappingError "unknownSort").
Proof. split; reflexivity. Qed.

(** C2 (as amended) on the sort list of the tests, with a mapped key
    before the unmapped one. *)
Lemma order_by_policy_witness :
  Forall (fun sortItem => inheritedFields nameOnly (property sortItem) = None)
    [mkSortItem "name" DESC; mkSortItem "unknownSort" ASC]
  /\ (exists expressions,
        orderByOf (Some [mkSortItem "name" DESC; mkSortItem "unknownSort" ASC])
          nameOnly (@createPgDrizzleOperators JsValue) false
        = Ok (Some expressions)
        /\ orderedAs (ownOnly nameOnly) (@createPgDrizzleOperators JsValue)
             [mkSortItem "name" DESC; mkSortItem "unknownSort" ASC] expressions)
  /\ orderByOf (Some [mkSortItem "name" DESC; mkSortItem "unknownSort" ASC])
       nameOnly (@createPgDrizzleOperators JsValue) false
     = Ok (Some [SqlDesc users_name])
  /\ ownOnly nameOnly !! "unknownSort" = None
  /\ orderByOf (Some [mkSortItem "name" DESC; mkSortItem "unknownSort" ASC])
       nameOnly (@createPgDrizzleOperators JsValue) true
     = Throw (FieldMappingError "unknownSort").
Proof.
  assert (Hown : Forall (fun sortItem =>
                           inheritedFields nameOnly (property sortItem) = None)
                   [mkSortItem "name" DESC; mkSortItem "unknownSort" ASC]).
  { repeat constructor. }
  assert (Hasc : forall c, returns (o_asc (@createPgDrizzleOperators JsValue) c))
    by (intros c; exact I).
  assert (Hdesc : forall c, returns (o_desc (@createPgDrizzleOperators JsValue) c))
    by (intros c; exact I).
  assert (Hname : Forall (fun earlier =>
                            is_Some (ownOnly nameOnly !! property earlier))
                    [mkSortItem "name" DESC]).
  { repeat constructor. eexists; reflexivity. }
  split; [exact Hown|].
  split.
  { apply (proj1 (order_by_mapping_policy
                    [mkSortItem "name" DESC; mkSortItem "unknownSort" ASC]
                    nameOnly (@createPgDrizzleOperators JsValue)
                    Hown Hasc Hdesc)). }
  split; [reflexivity|]. split; [reflexivity|].
  apply (proj2 (proj2 (order_by_mapping_policy
                         [mkSortItem "name" DESC; mkSortItem "unknownSort" ASC]
                         nameOnly (@createPgDrizzleOperators JsValue)
                         Hown Hasc Hdesc))
           [mkSortItem "name" DESC] (mkSortItem "unknownSort" ASC) []);
    [reflexivity|exact Hname|reflexivity].
Defined.

(** C3: three mapped paths, the third of which has for own alias the
    suffixed alias given to the second.  The loop makes three assignments
    on two keys: the third overwrites the second, whose column is lost. *)
Theorem suffixed_alias_overwrites :
  mappedPaths collidingSelect collidingFields
    = [("profile.name", users_name); ("profile_name", users_age);
       ("profile_name_1", users_id)]
  /\ (aliasedSpec defaultSelectAlias
        (mappedPaths collidingSelect collidingFields)).*1
     = ["profile_name"; "profile_name_1"; "profile_name_1"]
  /\ (forall strict,
        buildSelectShapeInternal collidingSelect collidingFields strict
          defaultSelectAlias
        = Ok {[ "profile_name" := users_name; "profile_name_1" := users_id ]})
  /\ (forall strict selectShape,
        buildSelectShapeInternal collidingSelect collidingFields strict
          defaultSelectAlias = Ok selectShape ->
        size selectShape = 2
        /\ forall alias, selectShape !! alias <> Some users_age).
Proof.
  assert (Hbuild : forall strict,
    buildSelectShapeInternal collidingSelect collidingFields strict
      defaultSelectAlias
    = Ok {[ "profile_name" := users_name; "profile_name_1" := users_id ]}).
  { by intros []. }
  split; [reflexivity|]. split; [reflexivity|]. split; [exact Hbuild|].
  intros strict selectShape. rewrite Hbuild. intros [= <-]. split.
  - reflexivity.
  - intros alias.
    destruct (decide (alias = "profile_name")) as [->|H1]; [discriminate|].
    destruct (decide (alias = "profile_name_1")) as [->|H2]; [discriminate|].
    by rewrite lookup_insert_ne, lookup_singleton_ne.
Qed.

(** C4 as stated fails for a request that is not of type [LIMIT_OFFSET]:
    page 2 and limit 10 are present and the bundle has no offset.  It also
    fails where the product is no double: page 94906268 and limit 94906267
    give the offset 9007199515875288, one less than
    [(max(page, 1) - 1) * limit]. *)
Lemma offset_cursor_counterexample :
  page (pageRequest CURSOR (Some (Finite 2)) (Some (Finite 10)))
    = Some (Finite 2)
  /\ limit (pageRequest CURSOR (Some (Finite 2)) (Some (Finite 10)))
     = Some (Finite 10)
  /\ c_offset <$> buildDrizzleClausesFromPagination
                    (pageRequest CURSOR (Some (Finite 2)) (Some (Finite 10)))
                    (pgConfig nameOnly None)
     = Ok None
  /\ c_offset <$> buildDrizzleClausesFromPagination
                    (pageRequest CURSOR (Some (Finite 2)) (Some (Finite 10)))
                    (pgConfig nameOnly None)
     <> Ok (Some (Finite ((Z.max 2 1 - 1) * 10)))
  /\ c_offset <$> buildDrizzleClausesFromPagination
                    (pageRequest LIMIT_OFFSET (Some (Finite 94906268))
                       (Some (Finite 94906267)))
                    (pgConfig nameOnly None)
     = Ok (Some (Finite 9007199515875288))
  /\ ((Z.max 94906268 1 - 1) * 94906267 = 9007199515875289)%Z.
Proof.
  split; [reflexivity|]. split; [reflexivity|]. split; [reflexivity|].
  split; [discriminate|]. split; [by vm_compute|reflexivity].
Qed.

(** C4 (as amended) on the test "normalizes offset when page is zero" and
    on page 3. *)
Lemma offset_page_zero_witness :
  buildDrizzleClausesFromPagination
    (pageRequest LIMIT_OFFSET (Some (Finite 0)) (Some (Finite 10)))
    (pgConfig nameOnly None)
  = Ok (mkClauses ∅ None None (Some (Finite 10)) (Some (Finite 0)))
  /\ (0 <= 2 ^ 53)%Z
  /\ (Z.abs ((Z.max 0 1 - 1) * 10) <= 2 ^ 53)%Z
  /\ c_offset (mkClauses (TWhereExpr := SQL JsValue) (TOrderByExpr := SQL JsValue)
                 (∅ : gmap string Column) None None (Some (Finite 10))
                 (Some (Finite 0)))
     = Some (Finite ((Z.max 0 1 - 1) * 10))
  /\ buildDrizzleClausesFromPagination
       (pageRequest LIMIT_OFFSET (Some (Finite 3)) (Some (Finite 10)))
       (pgConfig nameOnly None)
     = Ok (mkClauses ∅ None None (Some (Finite 10)) (Some (Finite 20)))
  /\ c_offset (mkClauses (TWhereExpr := SQL JsValue) (TOrderByExpr := SQL JsValue)
                 (∅ : gmap string Column) None None (Some (Finite 10))
                 (Some (Finite 20)))
     = Some (Finite ((Z.max 3 1 - 1) * 10)).
Proof.
  assert (H : buildDrizzleClausesFromPagination
    (pageRequest LIMIT_OFFSET (Some (Finite 0)) (Some (Finite 10)))
    (pgConfig nameOnly None)
  = Ok (mkClauses ∅ None None (Some (Finite 10)) (Some (Finite 0))))
    by reflexivity.
  assert (H3 : buildDrizzleClausesFromPagination
    (pageRequest LIMIT_OFFSET (Some (Finite 3)) (Some (Finite 10)))
    (pgConfig nameOnly None)
  = Ok (mkClauses ∅ None None (Some (Finite 10)) (Some (Finite 20))))
    by reflexivity.
  assert (Hpage : (0 <= 2 ^ 53)%Z) by lia.
  assert (Hproduct : (Z.abs ((Z.max 0 1 - 1) * 10) <= 2 ^ 53)%Z) by (simpl; lia).
  split; [exact H|]. split; [exact Hpage|]. split; [exact Hproduct|].
  split.
  { exact (proj1 (proj1 (offset_of_limit_offset_request _ _ _ H) 0%Z 10%Z
                    eq_refl eq_refl eq_refl Hpage Hproduct)). }
  split; [exact H3|].
  apply (proj1 (proj1 (offset_of_limit_offset_request _ _ _ H3) 3%Z 10%Z
                  eq_refl eq_refl eq_refl ltac:(lia) ltac:(simpl; lia))).
Defined.

(** C10 on a cursor request with page 2 and limit 10. *)
Lemma offset_cursor_witness :
  buildDrizzleClausesFromPagination
    (pageRequest CURSOR (Some (Finite 2)) (Some (Finite 10))) (pgConfig nameOnly None)
  = Ok (mkClauses ∅ None None (Some (Finite 10)) None)
  /\ type (pageRequest CURSOR (Some (Finite 2)) (Some (Finite 10))) <> LIMIT_OFFSET
  /\ c_offset (mkClauses (TWhereExpr := SQL JsValue) (TOrderByExpr := SQL JsValue)
                 (∅ : gmap string Column) None None (Some (Finite 10)) None)
     = None
  /\ c_limit (mkClauses (TWhereExpr := SQL JsValue) (TOrderByExpr := SQL JsValue)
                (∅ : gmap string Column) None None (Some (Finite 10)) None)
     = Some (Finite 10).
Proof.
  assert (H : buildDrizzleClausesFromPagination
    (pageRequest CURSOR (Some (Finite 2)) (Some (Finite 10))) (pgConfig nameOnly None)
  = Ok (mkClauses ∅ None None (Some (Finite 10)) None)) by reflexivity.
  assert (Htype : type (pageRequest CURSOR (Some (Finite 2)) (Some (Finite 10))) <> LIMIT_OFFSET)
    by discriminate.
  split; [exact H|]. split; [exact Htype|].
  apply (proj1 (proj2 (offset_only_for_limit_offset _ _ _ H)) Htype).
Defined.

(** ** The unit tests, run on the embedding *)

Lemma andSql_orSql_combine_non_empty (Scalar : Type) :
  combinesNonEmpty (@createPgDrizzleOperators Scalar)
  /\ combinesNonEmpty (@createMySqlDrizzleOperators Scalar).
Proof.
  split; intros [|e es] Hne; try done; split; exact I.
Qed.

(** In the two built-in operator sets every primitive but [contains]
    returns. *)
Lemma builtin_primitives_return (Scalar : Type) :
  primitivesReturn (@createPgDrizzleOperators Scalar)
  /\ primitivesReturn (@createMySqlDrizzleOperators Scalar).
Proof.
  split; repeat (split; [intros; exact I|]);
    apply andSql_orSql_combine_non_empty.
Qed.

(** "applies where, orderBy, limit and offset for limit/offset pagination" *)
Example test_applies_all_clauses :
  applyDrizzlePaginationOnQuery
    (mkPagination LIMIT_OFFSET (Some (Finite 2)) (Some (Finite 10)) None
       (Some [mkSortItem "name" DESC]) (Some nameFilter))
    (testConfig pg nameOnly None)
  = Ok (mkSpy [SqlEq users_name (JsString "alice")] [[SqlDesc users_name]]
          [Finite 10] [Finite 10],
        mkClauses ∅ (Some (SqlEq users_name (JsString "alice")))
          (Some [SqlDesc users_name]) (Some (Finite 10)) (Some (Finite 10))).
Proof. reflexivity. Qed.

(** "builds a select shape and returns it in clauses": the two paths of the
    test share the base alias [profile_name]. *)
Example test_select_alias_collision :
  buildSelectShapeInternal ["profile.name"; "profile_name"]
    profileFields true defaultSelectAlias
  = Ok {[ "profile_name" := users_name; "profile_name_1" := users_age ]}.
Proof. reflexivity. Qed.

(** "ignores unknown mapped fields when strictFieldMapping is disabled" *)
Example test_permissive_ignores_unknown :
  applyDrizzlePaginationOnQuery
    (mkPagination LIMIT_OFFSET (Some (Finite 1)) (Some (Finite 10)) (Some ["unknownSelect"])
       (Some [mkSortItem "unknownSort" ASC])
       (Some (FilterNode "unknownFilter" (cond (op_eq (JsString "x"))))))
    (testConfig pg nameOnly (Some false))
  = Ok (mkSpy [] [] [Finite 10] [Finite 0],
        mkClauses ∅ None None (Some (Finite 10)) (Some (Finite 0))).
Proof. reflexivity. Qed.

(** "throws when a field is missing and strictFieldMapping is enabled" *)
Example test_strict_throws :
  applyDrizzlePaginationOnQuery
    (mkPagination LIMIT_OFFSET (Some (Finite 1)) (Some (Finite 10)) None None
       (Some (FilterNode "missing" (cond (op_eq (JsNumber 1))))))
    (testConfig pg nameOnly (Some true))
  = Throw (mkError ("No Drizzle field mapping found for "
                    +:+ dquote +:+ "missing" +:+ dquote)).
Proof. reflexivity. Qed.

(** "supports ilike and starts-with operators", on the MySQL operators. *)
Example test_like_patterns :
  c_where <$> buildDrizzleClausesFromPagination
    (mkPagination LIMIT_OFFSET (Some (Finite 1)) (Some (Finite 10)) None None
       (Some (GroupNode or_type
                [FilterNode "name" (cond (op_ilike "al_ice%"));
                 FilterNode "name" (cond (op_sw "jo%n"))])))
    (mkConfig nameOnly createMySqlDrizzleOperators None None)
  = Ok (Some (SqlOr [SqlLike users_name "%al\_ice\%%";
                     SqlLike users_name "jo\%n%"])).
Proof. reflexivity. Qed.

(** "throws on contains when operator set has no contains implementation" *)
Example test_contains_mysql_throws :
  applyDrizzlePaginationOnQuery
    (mkPagination LIMIT_OFFSET (Some (Finite 1)) (Some (Finite 10)) None None
       (Some (FilterNode "name" containsCondition)))
    (testConfig mysql nameOnly None)
  = Throw UnsupportedOperatorError.
Proof. reflexivity. Qed.

(** "supports contains with postgres operators" *)
Example test_contains_pg :
  c_where <$> buildDrizzleClausesFromPagination
    (mkPagination LIMIT_OFFSET (Some (Finite 1)) (Some (Finite 10)) None None
       (Some (FilterNode "tags" (mkCondition "tags" (op_contains ["premium"]) None))))
    (pgConfig (objectLiteral {[ "tags" := users_tags ]}) None)
  = Ok (Some (SqlArrayContains users_tags ["premium"])).
Proof. reflexivity. Qed.

(** The [$btw] and negated [$lte] leaves of "supports all scalar comparison
    operators and not modifier". *)
Example test_btw_and_not :
  c_where <$> buildDrizzleClausesFromPagination
    (mkPagination LIMIT_OFFSET (Some (Finite 1)) (Some (Finite 20)) None None
       (Some (GroupNode and_type
                [FilterNode "age" (mkCondition "age" (op_lte (JsNumber 64)) (Some true));
                 FilterNode "age" (cond (op_btw (JsNumber 30) (JsNumber 40)))])))
    (pgConfig (objectLiteral {[ "age" := users_age ]}) None)
  = Ok (Some (SqlAnd [SqlNot (SqlLte users_age (JsNumber 64));
                      SqlAnd [SqlGte users_age (JsNumber 30);
                              SqlLte users_age (JsNumber 40)]])).
Proof. reflexivity. Qed.

(** The scenario of a request with page 2 and limit 10 only. *)
Example test_page_two :
  buildDrizzleClausesFromPagination
    (pageRequest LIMIT_OFFSET (Some (Finite 2)) (Some (Finite 10))) (pgConfig nameOnly None)
  = Ok (mkClauses ∅ None None (Some (Finite 10)) (Some (Finite 10))).
Proof. reflexivity. Qed.

(** A PostgreSQL [$contains] with no value: Drizzle's [arrayContains]
    refuses the empty list. *)
Example test_contains_pg_empty :
  buildDrizzleClausesFromPagination
    (mkPagination LIMIT_OFFSET (Some (Finite 1)) (Some (Finite 10)) None None
       (Some (FilterNode "tags" (mkCondition "tags" (op_contains []) None))))
    (pgConfig (objectLiteral {[ "tags" := users_tags ]}) (Some false))
  = Throw (mkError "arrayContains requires at least one value").
Proof. reflexivity. Qed.

(** Names inherited from [Object.prototype] in a select list and a sort
    list under strict mapping: the lookup answers, nothing is thrown; the
    assignment to [__proto__] leaves no key in the select shape. *)
Example test_inherited_names :
  buildSelectShapeInternal ["__proto__"] nameOnly true defaultSelectAlias
    = Ok ∅
  /\ buildSelectShapeInternal ["toString"] nameOnly false defaultSelectAlias
     = Ok {[ "toString" := prototypeMember "toString" ]}
  /\ orderByOf (Some [mkSortItem "valueOf" ASC]) nameOnly
       (@createPgDrizzleOperators JsValue) true
     = Ok (Some [SqlAsc (prototypeMember "valueOf")]).
Proof. repeat split. Qed.

(** ** The further properties on the fixtures *)

Lemma where_present_witness :
  whereNodeToDrizzleExpr (GroupNode and_type [unknownFilter; nameFilter])
    nameOnly createPgDrizzleOperators false
  = Ok (Some (SqlEq users_name (JsString "alice")))
  /\ (is_Some (Some (SqlEq users_name (JsString "alice")))
      <-> exists field condition,
            leafOf field condition (GroupNode and_type [unknownFilter; nameFilter])
            /\ is_Some (nameOnly !! field)).
Proof.
  split; [reflexivity|].
  exact (where_present_iff_mapped_leaf
           (GroupNode and_type [unknownFilter; nameFilter]) nameOnly
           createPgDrizzleOperators false _ eq_refl).
Defined.

Lemma strict_where_witness :
  whereNodeToDrizzleExpr (GroupNode or_type [nameFilter]) nameOnly
    createPgDrizzleOperators true
  = Ok (Some (SqlEq users_name (JsString "alice")))
  /\ leafOf "name" (cond (op_eq (JsString "alice")))
       (GroupNode or_type [nameFilter])
  /\ is_Some (nameOnly !! "name").
Proof.
  assert (Hleaf : leafOf "name" (cond (op_eq (JsString "alice")))
                    (GroupNode or_type [nameFilter])).
  { eapply leafOf_item; [apply list_elem_of_here|apply leafOf_here]. }
  split; [reflexivity|]. split; [exact Hleaf|].
  exact (strict_where_returns_all_mapped (GroupNode or_type [nameFilter])
           nameOnly createPgDrizzleOperators _ "name" _ eq_refl Hleaf).
Defined.

Lemma select_shape_complete_witness :
  (forall e1 e2 n,
     e1 ∈ mappedPaths profileSelect profileFields ->
     e2 ∈ mappedPaths profileSelect profileFields ->
     defaultSelectAlias e1.1 <> finalAliasOf (defaultSelectAlias e2.1) (S n))
  /\ (forall e,
        e ∈ mappedPaths profileSelect profileFields ->
        defaultSelectAlias e.1 <> protoKey)
  /\ buildSelectShapeInternal profileSelect profileFields true defaultSelectAlias
     = Ok {[ "profile_name" := users_name; "profile_name_1" := users_age ]}
  /\ size ({[ "profile_name" := users_name; "profile_name_1" := users_age ]}
             : gmap string Column)
     = length (mappedPaths profileSelect profileFields).
Proof.
  assert (Halias : forall e : string * Column,
            e ∈ mappedPaths profileSelect profileFields ->
            defaultSelectAlias e.1 = "profile_name").
  { intros e He. change (mappedPaths profileSelect profileFields)
      with [("profile.name", users_name); ("profile_name", users_age)] in He.
    apply elem_of_cons in He as [->|He]; [reflexivity|].
    apply elem_of_cons in He as [->|He]; [reflexivity|].
    by apply elem_of_nil in He. }
  assert (Hclash : forall e1 e2 n,
     e1 ∈ mappedPaths profileSelect profileFields ->
     e2 ∈ mappedPaths profileSelect profileFields ->
     defaultSelectAlias e1.1 <> finalAliasOf (defaultSelectAlias e2.1) (S n)).
  { intros e1 e2 n H1 H2. rewrite (Halias e1 H1), (Halias e2 H2).
    apply append_longer. discriminate. }
  assert (Hproto : forall e,
        e ∈ mappedPaths profileSelect profileFields ->
        defaultSelectAlias e.1 <> protoKey).
  { intros e He. rewrite (Halias e He). discriminate. }
  split; [exact Hclash|]. split; [exact Hproto|]. split; [reflexivity|].
  exact (select_shape_complete profileSelect profileFields true
           defaultSelectAlias _ Hclash Hproto eq_refl).
Defined.

Lemma pruned_child_witness :
  whereNodeToDrizzleExpr unknownFilter nameOnly createPgDrizzleOperators false
  = Ok None
  /\ whereNodeToDrizzleExpr (GroupNode and_type ([] ++ unknownFilter :: [nameFilter]))
       nameOnly createPgDrizzleOperators false
     = whereNodeToDrizzleExpr (GroupNode and_type ([] ++ [nameFilter]))
         nameOnly createPgDrizzleOperators false.
Proof.
  split; [reflexivity|].
  exact (proj1 (pruned_child_is_neutral and_type [] unknownFilter [nameFilter]
                  nameOnly createPgDrizzleOperators false eq_refl)).
Defined.

Lemma where_errors_witness :
  primitivesReturn (@createPgDrizzleOperators JsValue)
  /\ whereNodeToDrizzleExpr (GroupNode or_type [nameFilter; noTagFilter])
       tagsFields createPgDrizzleOperators true
     = Throw (mkError "arrayContains requires at least one value")
  /\ ((true = true
       /\ exists field condition,
            leafOf field condition (GroupNode or_type [nameFilter; noTagFilter])
            /\ tagsFields !! field = None
            /\ mkError "arrayContains requires at least one value"
               = FieldMappingError field)
      \/ (exists field condition c values,
            leafOf field condition (GroupNode or_type [nameFilter; noTagFilter])
            /\ tagsFields !! field = Some c
            /\ op condition = op_contains values
            /\ ((o_contains (@createPgDrizzleOperators JsValue) = None
                 /\ mkError "arrayContains requires at least one value"
                    = UnsupportedOperatorError)
                \/ exists contains,
                     o_contains (@createPgDrizzleOperators JsValue)
                       = Some contains
                     /\ contains c values
                        = Throw (mkError
                                   "arrayContains requires at least one value")))).
Proof.
  pose proof (proj1 (builtin_primitives_return JsValue)) as Hprimitives.
  split; [exact Hprimitives|]. split; [reflexivity|].
  exact (where_errors_characterised
           (GroupNode or_type [nameFilter; noTagFilter])
           tagsFields createPgDrizzleOperators true _ Hprimitives eq_refl).
Defined.

Lemma condition_fails_witness :
  primitivesReturn (@createPgDrizzleOperators JsValue)
  /\ throws (conditionToDrizzleExpr (mkCondition "tags" (op_contains []) None)
               users_tags (@createPgDrizzleOperators JsValue))
  /\ (throws (conditionToDrizzleExpr (mkCondition "tags" (op_contains []) None)
                users_tags (@createPgDrizzleOperators JsValue))
      <-> exists values,
            op (mkCondition (Scalar := JsValue) "tags" (op_contains []) None)
              = op_contains values
            /\ (o_contains (@createPgDrizzleOperators JsValue) = None
                \/ exists contains,
                     o_contains (@createPgDrizzleOperators JsValue)
                       = Some contains
                     /\ throws (contains users_tags values))).
Proof.
  pose proof (proj1 (builtin_primitives_return JsValue)) as Hprimitives.
  split; [exact Hprimitives|]. split; [exact I|].
  exact (condition_fails_only_on_contains
           (mkCondition "tags" (op_contains []) None) users_tags
           createPgDrizzleOperators Hprimitives).
Defined.

Lemma select_shape_entries_witness :
  buildSelectShapeInternal ["name"; "unknownSelect"] nameOnly false
    defaultSelectAlias
  = Ok {[ "name" := users_name ]}
  /\ (forall key c,
        ({[ "name" := users_name ]} : gmap string Column) !! key = Some c ->
        exists fieldPath collisionIndex,
          fieldPath ∈ ["name"; "unknownSelect"]
          /\ nameOnly !! fieldPath = Some c
          /\ key = finalAliasOf (defaultSelectAlias fieldPath) collisionIndex)
  /\ size ({[ "name" := users_name ]} : gmap string Column)
     <= length (mappedPaths ["name"; "unknownSelect"] nameOnly).
Proof.
  split; [reflexivity|].
  pose proof (select_shape_entries_requested ["name"; "unknownSelect"] nameOnly
                false defaultSelectAlias _ eq_refl) as (H1 & H2 & _).
  split; [exact H1|exact H2].
Defined.

Lemma select_shape_empty_witness :
  Forall (fun p => defaultSelectAlias p <> protoKey) ["unknownSelect"]
  /\ buildSelectShapeInternal ["unknownSelect"] nameOnly false defaultSelectAlias
     = Ok ∅
  /\ ((∅ : gmap string Column) = ∅
      <-> Forall (fun p => nameOnly !! p = None) ["unknownSelect"]).
Proof.
  assert (Halias : Forall (fun p => defaultSelectAlias p <> protoKey)
                     ["unknownSelect"]).
  { repeat constructor; discriminate. }
  split; [exact Halias|]. split; [reflexivity|].
  exact (proj1 (select_shape_empty_iff ["unknownSelect"] nameOnly false
                  defaultSelectAlias _ Halias eq_refl)).
Defined.

Lemma full_request_clauses :
  buildDrizzleClausesFromPagination fullRequest (pgConfig nameOnly None)
  = Ok fullClauses.
Proof. reflexivity. Qed.

Lemma order_by_witness :
  buildDrizzleClausesFromPagination sortedRequest (pgConfig nameOnly (Some false))
  = Ok sortedClauses
  /\ c_orderBy sortedClauses = Some [SqlDesc users_name; SqlAsc users_name]
  /\ c_orderBy sortedClauses <> Some []
  /\ (forall orderBy,
        c_orderBy sortedClauses = Some orderBy ->
        exists sortItems,
          sortBy sortedRequest = Some sortItems
          /\ orderedAs nameOnly (@createPgDrizzleOperators JsValue)
               sortItems orderBy).
Proof.
  assert (H : buildDrizzleClausesFromPagination sortedRequest
                (pgConfig nameOnly (Some false))
              = Ok sortedClauses) by reflexivity.
  split; [exact H|]. split; [reflexivity|].
  pose proof (order_by_absent_or_non_empty sortedRequest
                (pgConfig nameOnly (Some false)) _ H) as (H1 & _ & H3).
  split; [exact H1|exact H3].
Defined.

Lemma mode_irrelevant_witness :
  (forall selectedFields,
     select fullRequest = Some selectedFields ->
     Forall (fun p => is_Some (nameOnly !! p)) selectedFields)
  /\ (forall node field condition,
        filters fullRequest = Some node -> leafOf field condition node ->
        is_Some (nameOnly !! field))
  /\ (forall sortItems,
        sortBy fullRequest = Some sortItems ->
        Forall (fun sortItem => is_Some (nameOnly !! property sortItem)) sortItems)
  /\ buildDrizzleClausesFromPagination fullRequest (pgConfig nameOnly (Some true))
     = buildDrizzleClausesFromPagination fullRequest (pgConfig nameOnly (Some false)).
Proof.
  assert (Hname : is_Some (nameOnly !! "name")) by (eexists; reflexivity).
  assert (H1 : forall selectedFields,
     select fullRequest = Some selectedFields ->
     Forall (fun p => is_Some (nameOnly !! p)) selectedFields).
  { intros ? [= <-]. by repeat constructor. }
  assert (H2 : forall node field condition,
        filters fullRequest = Some node -> leafOf field condition node ->
        is_Some (nameOnly !! field)).
  { intros ? ? ? [= <-] Hleaf. by inversion Hleaf; subst. }
  assert (H3 : forall sortItems,
        sortBy fullRequest = Some sortItems ->
        Forall (fun sortItem => is_Some (nameOnly !! property sortItem)) sortItems).
  { intros ? [= <-]. by repeat constructor. }
  split; [exact H1|]. split; [exact H2|]. split; [exact H3|].
  exact (clauses_mode_irrelevant_when_mapped fullRequest nameOnly
           createPgDrizzleOperators None (Some true) (Some false) H1 H2 H3).
Defined.


Lemma offset_pages_witness :
  buildDrizzleClausesFromPagination
    (pageRequest LIMIT_OFFSET (Some (Finite 2)) (Some (Finite 10))) (pgConfig nameOnly None)
  = Ok (mkClauses ∅ None None (Some (Finite 10)) (Some (Finite 10)))
  /\ (0 <= 10)%Z /\ (2 < 2 ^ 53)%Z /\ (Z.max 2 1 * 10 <= 2 ^ 53)%Z
  /\ exists offset : Z,
       c_offset (mkClauses (TWhereExpr := SQL JsValue) (TOrderByExpr := SQL JsValue)
                   (∅ : gmap string Column) None None (Some (Finite 10)) (Some (Finite 10)))
       = Some (Finite offset)
       /\ (0 <= offset)%Z
       /\ forall clauses',
           (1 <= 2)%Z ->
           type (pageRequest LIMIT_OFFSET (Some (Finite 3)) (Some (Finite 10))) = LIMIT_OFFSET ->
           page (pageRequest LIMIT_OFFSET (Some (Finite 3)) (Some (Finite 10)))
             = Some (Finite (2 + 1)) ->
           limit (pageRequest LIMIT_OFFSET (Some (Finite 3)) (Some (Finite 10)))
             = Some (Finite 10) ->
           buildDrizzleClausesFromPagination
             (pageRequest LIMIT_OFFSET (Some (Finite 3)) (Some (Finite 10)))
             (pgConfig nameOnly None) = Ok clauses' ->
           c_offset clauses' = Some (Finite (offset + 10)).
Proof.
  split; [reflexivity|]. split; [lia|]. split; [lia|]. split; [simpl; lia|].
  exact (offset_pages_tile (pageRequest LIMIT_OFFSET (Some (Finite 2)) (Some (Finite 10)))
           (pageRequest LIMIT_OFFSET (Some (Finite 3)) (Some (Finite 10)))
           (pgConfig nameOnly None) _ 2%Z 10%Z eq_refl eq_refl eq_refl eq_refl
           ltac:(lia) ltac:(lia) ltac:(simpl; lia)).
Defined.

Lemma dialects_agree_witness :
  (forall field condition,
     leafOf field condition (GroupNode and_type [unknownFilter; nameFilter]) ->
     sameInBothDialects condition = true)
  /\ whereNodeToDrizzleExpr (GroupNode and_type [unknownFilter; nameFilter])
       nameOnly (getOperatorsForDialect pg) false
     = whereNodeToDrizzleExpr (GroupNode and_type [unknownFilter; nameFilter])
         nameOnly (getOperatorsForDialect mysql) false.
Proof.
  assert (Hsame : forall field condition,
     leafOf field condition (GroupNode and_type [unknownFilter; nameFilter]) ->
     sameInBothDialects condition = true).
  { intros field condition Hleaf.
    inversion Hleaf as [|? ? item Hin Hitem]; subst.
    apply elem_of_cons in Hin as [->|Hin]; [by inversion Hitem|].
    apply elem_of_cons in Hin as [->|Hin]; [by inversion Hitem|].
    by apply elem_of_nil in Hin. }
  split; [exact Hsame|].
  exact (proj1 (dialects_agree_outside_like_and_contains
                  (GroupNode and_type [unknownFilter; nameFilter]) nameOnly
                  false Hsame)).
Defined.

Lemma spy_calls_witness :
  applyDrizzlePaginationOnQuery fullRequest (testConfig pg nameOnly None)
  = Ok (mkSpy [SqlEq users_name (JsString "alice")] [[SqlDesc users_name]]
          [Finite 10] [Finite 10], fullClauses)
  /\ whereCalls (mkSpy [SqlEq users_name (JsString "alice")]
                   [[SqlDesc users_name]] [Finite 10] [Finite 10])
     = whereCalls (a_buildQuery (testConfig pg nameOnly None)
                     (c_select fullClauses))
       ++ option_list (c_where fullClauses)
  /\ orderByCalls (mkSpy [SqlEq users_name (JsString "alice")]
                     [[SqlDesc users_name]] [Finite 10] [Finite 10])
     = orderByCalls (a_buildQuery (testConfig pg nameOnly None)
                       (c_select fullClauses))
       ++ option_list (c_orderBy fullClauses).
Proof.
  assert (H : applyDrizzlePaginationOnQuery fullRequest (testConfig pg nameOnly None)
  = Ok (mkSpy [SqlEq users_name (JsString "alice")] [[SqlDesc users_name]]
          [Finite 10] [Finite 10], fullClauses)) by reflexivity.
  split; [exact H|].
  pose proof (spy_calls_match_clauses fullRequest (testConfig pg nameOnly None)
                _ _ H) as (H1 & H2 & _).
  split; [exact H1|exact H2].
Defined.

Lemma query_calls_witness :
  applyDrizzlePaginationOnQuery fullRequest (recordingConfig pg nameOnly None)
  = Ok ([WhereCall (SqlEq users_name (JsString "alice"));
         OrderByCall [SqlDesc users_name]; LimitCall (Finite 10); OffsetCall (Finite 10)],
        fullClauses)
  /\ [WhereCall (SqlEq users_name (JsString "alice"));
      OrderByCall [SqlDesc users_name]; LimitCall (Finite 10); OffsetCall (Finite 10)]
     = a_buildQuery (recordingConfig pg nameOnly None) (c_select fullClauses)
       ++ option_list (WhereCall <$> c_where fullClauses)
       ++ option_list (OrderByCall <$> c_orderBy fullClauses)
       ++ option_list (LimitCall <$> c_limit fullClauses)
       ++ option_list (OffsetCall <$> c_offset fullClauses).
Proof.
  assert (H : applyDrizzlePaginationOnQuery fullRequest
                (recordingConfig pg nameOnly None)
  = Ok ([WhereCall (SqlEq users_name (JsString "alice"));
         OrderByCall [SqlDesc users_name]; LimitCall (Finite 10); OffsetCall (Finite 10)],
        fullClauses)) by reflexivity.
  split; [exact H|].
  exact (query_calls_in_order fullRequest (recordingConfig pg nameOnly None)
           _ _ H).
Defined.

